(** * Lily-bot: the song-request queue of [lily-bot.py]

    A shallow embedding of the module-level state of [lily-bot.py]
    ([song_list], [current_idx], [played_idx], [active_streams],
    [youtube_client]) and of the command handlers and the chat poller
    that read and write it, followed by the properties of the queue.

    Conventions of the embedding:
    - a Python [int] is a [Z]; a Python [str] is the [string] of its
      UTF-8 bytes: an ASCII character is one [ascii], any other
      character is a lead byte followed by continuation bytes, and the
      operations that count characters ([s[n:]], [len]) count them so;
    - the dictionary [song_list] is a [gmap Z Song]; the code only looks
      keys up, tests membership, emptiness and [len], so the insertion
      order of the dictionary is never observed;
    - a queue entry [[title, requester]] is a pair, [song_list[i][0]] is
      [.1] and [song_list[i][1]] is [.2];
    - a handler is a function from the state to the new state and the
      message it sends; an uncaught exception is the reply [Raised], and
      the assignments made before it are kept, as in Python;
    - a [discord.Embed] is the record of its texts (colours are left out). *)

From stdpp Require Import base option gmap sets list list_numbers strings pretty.
From Stdlib Require Import ZArith Lia Ascii.

Open Scope string_scope.
Open Scope Z_scope.

(** ** Python strings *)

Definition lower_ascii (c : ascii) : ascii :=
  let n := N_of_ascii c in
  if ((65 <=? n) && (n <=? 90))%N then ascii_of_N (n + 32) else c.

(** [s.lower()], on the ASCII letters: the code uses the result only to
    test whether it starts with [!req], and no character outside ASCII
    becomes one of these four in lower case. *)
Fixpoint lower (s : string) : string :=
  match s with
  | EmptyString => EmptyString
  | String c s' => String (lower_ascii c) (lower s')
  end.

(** [s.startswith(p)] *)
Definition startswith (p s : string) : bool := String.prefix p s.

(** A continuation byte of UTF-8 ([10xxxxxx]): it belongs to the
    character of the byte before it. *)
Definition is_continuation (c : ascii) : bool :=
  let n := N_of_ascii c in ((128 <=? n) && (n <=? 191))%N.

(** The text after the continuation bytes at its head. *)
Fixpoint skip_continuation (s : string) : string :=
  match s with
  | EmptyString => EmptyString
  | String c s' => if is_continuation c then skip_continuation s' else s
  end.

(** [s[n:]]: the text without its first [n] characters. A character is
    a byte with the continuation bytes that follow it. *)
Fixpoint str_drop (n : nat) (s : string) : string :=
  match n, s with
  | O, _ => s
  | S n', String _ s' => str_drop n' (skip_continuation s')
  | S _, EmptyString => EmptyString
  end.

(** The bytes of [s] that start a character. *)
Fixpoint count_leads (s : string) : nat :=
  match s with
  | EmptyString => O
  | String c s' =>
      if is_continuation c then count_leads s' else S (count_leads s')
  end.

(** [len(s)]: the number of characters. The first byte starts a
    character, and so does every later byte that is not a continuation
    byte. *)
Definition str_len (s : string) : nat :=
  match s with
  | EmptyString => O
  | String _ s' => S (count_leads s')
  end.

(** [s.split(sep)] for a one-character separator: never empty. *)
Fixpoint split (sep : ascii) (s : string) : list string :=
  match s with
  | EmptyString => [EmptyString]
  | String c s' =>
      if Ascii.eqb c sep then EmptyString :: split sep s'
      else match split sep s' with
           | h :: t => String c h :: t
           | [] => [String c EmptyString]
           end
  end.

(** [str(n)] of an [int] *)
Definition str (n : Z) : string := pretty n.

(** ** Data model *)

(** An entry of [song_list]: [[title, requester]]. *)
Definition Song : Type := string * string.

(** The module-level variables (lines 27-33). [youtube_client] is
    [None] until [on_ready] builds the client; only its truth value is
    used. *)
Record State := mkState {
  song_list : gmap Z Song;
  current_idx : Z;
  played_idx : Z;
  active_streams : gmap Z string;
  youtube_client : bool
}.

Definition init : State :=
  {| song_list := ∅; current_idx := 0; played_idx := 0;
     active_streams := ∅; youtube_client := false |}.

Definition set_song_list (m : gmap Z Song) (st : State) : State :=
  {| song_list := m; current_idx := current_idx st;
     played_idx := played_idx st; active_streams := active_streams st;
     youtube_client := youtube_client st |}.

Definition set_current_idx (n : Z) (st : State) : State :=
  {| song_list := song_list st; current_idx := n;
     played_idx := played_idx st; active_streams := active_streams st;
     youtube_client := youtube_client st |}.

Definition set_played_idx (n : Z) (st : State) : State :=
  {| song_list := song_list st; current_idx := current_idx st;
     played_idx := n; active_streams := active_streams st;
     youtube_client := youtube_client st |}.

Definition set_active_streams (a : gmap Z string) (st : State) : State :=
  {| song_list := song_list st; current_idx := current_idx st;
     played_idx := played_idx st; active_streams := a;
     youtube_client := youtube_client st |}.

Definition set_youtube_client (b : bool) (st : State) : State :=
  {| song_list := song_list st; current_idx := current_idx st;
     played_idx := played_idx st; active_streams := active_streams st;
     youtube_client := b |}.

(** The three variables of the queue, as one value. *)
Definition queue (st : State) : gmap Z Song * Z * Z :=
  (song_list st, current_idx st, played_idx st).

(** [len(song_list)] *)
Definition len (m : gmap Z Song) : Z := Z.of_nat (size m).

(** [not song_list] *)
Definition is_empty (m : gmap Z Song) : bool := bool_decide (m = ∅).

(** ** Messages *)

Record Embed := mkEmbed {
  embed_title : option string;
  embed_description : option string;
  embed_author : option string;
  embed_fields : list (string * string);
  embed_footer : option string
}.

(** What a handler does towards the channel: [ctx.send(text)],
    [ctx.send(embed=e)], or an exception that leaves the handler
    ([KeyError] of a dictionary lookup, [IndexError] of a list index). *)
Inductive Reply :=
| Text (content : string)
| Card (e : Embed)
| Raised.

Definition reply_of (o : option Embed) : Reply :=
  match o with Some e => Card e | None => Raised end.

(** [f"{song_list[i][0]} - {song_list[i][1]}"] *)
Definition fmt (s : Song) : string := s.1 +:+ " - " +:+ s.2.

(** [discord.Embed(title=t, ...)] with the fields added by [add_field]. *)
Definition titled (t : string) (fs : list (string * string))
    (foot : option string) : Embed :=
  {| embed_title := Some t; embed_description := None; embed_author := None;
     embed_fields := fs; embed_footer := foot |}.

(** The embed of a request: description, [set_author], [set_footer]. *)
Definition request_embed (descr author foot : string) : Embed :=
  {| embed_title := None; embed_description := Some descr;
     embed_author := Some author; embed_fields := []; embed_footer := Some foot |}.

(** ** [extract_youtube_id] (lines 35-50) *)

Definition is_id_char (c : ascii) : bool :=
  let n := N_of_ascii c in
  (((97 <=? n) && (n <=? 122)) || ((65 <=? n) && (n <=? 90))
   || ((48 <=? n) && (n <=? 57)) || (n =? 95) || (n =? 45))%N.

(** [([a-zA-Z0-9_-]{n})] at the head of [s]: the captured group. *)
Fixpoint take_id (n : nat) (s : string) : option string :=
  match n, s with
  | O, _ => Some EmptyString
  | S n', String c s' =>
      if is_id_char c then String c <$> take_id n' s' else None
  | S _, EmptyString => None
  end.

Fixpoint strip_prefix (p s : string) : option string :=
  match p, s with
  | EmptyString, _ => Some s
  | String a p', String b s' => if Ascii.eqb a b then strip_prefix p' s' else None
  | String _ _, EmptyString => None
  end.

(** One pattern of the list: every pattern starts with the optional
    group [(?:https?://)?]; all but the third continue with the optional
    [(?:www\.)?]; then a literal and the eleven-character group. *)
Record Pattern := mkPattern { opt_www : bool; literal : string }.

Definition patterns : list Pattern :=
  [ mkPattern true "youtube.com/watch?v=";
    mkPattern true "youtube.com/live/";
    mkPattern false "youtu.be/";
    mkPattern true "youtube.com/embed/" ].

(** The ways the optional groups can match, in the order the greedy
    matcher tries them. *)
Definition alternatives (p : Pattern) : list string :=
  sch ← ["https://"; "http://"; ""];
  w ← (if opt_www p then ["www."; ""] else [""]);
  [sch +:+ w +:+ literal p].

Fixpoint first_some {A B} (f : A → option B) (l : list A) : option B :=
  match l with
  | [] => None
  | a :: l' => match f a with Some b => Some b | None => first_some f l' end
  end.

(** The pattern matched at the head of [s]. *)
Definition match_at (p : Pattern) (s : string) : option string :=
  first_some (λ alt, strip_prefix alt s ≫= take_id 11) (alternatives p).

(** [re.search(pattern, url)]: the leftmost match; [group(1)]. *)
Fixpoint search (p : Pattern) (s : string) : option string :=
  match match_at p s with
  | Some id => Some id
  | None => match s with
            | EmptyString => None
            | String _ s' => search p s'
            end
  end.

Definition extract_youtube_id (url : string) : option string :=
  first_some (λ p, search p url) patterns.

(** ** The queue commands *)

(** [current_idx += 1; song_list[current_idx] = entry]: the append of
    the poller (lines 122-123) and of [add] (lines 317-319). *)
Definition append (entry : Song) (st : State) : State :=
  let st1 := set_current_idx (current_idx st + 1) st in
  set_song_list (<[current_idx st1 := entry]> (song_list st1)) st1.

(** [range(a, b)] *)
Definition range (a b : Z) : list Z := seqZ a (b - a).

(** [current_song] (lines 212-246). *)
Definition current_song (channel : Z) (st : State) : Reply :=
  reply_of (
    fs ← (if is_empty (song_list st) then
            Some [("Current Song", "Tidak ada lagu dalam queue saat ini!")]
          else if bool_decide (played_idx st = 0) then
            if bool_decide (current_idx st >= 1) then
              s ← song_list st !! 1;
              Some [("Current Song",
                     "Belum ada lagu yang dimainkan. Next: " +:+ fmt s)]
            else
              Some [("Current Song", "Tidak ada lagu dalam queue saat ini!")]
          else
            s ← song_list st !! played_idx st;
            Some [("Current Song", fmt s)]);
    Some (titled "Lily Current Song" fs None)).

(** [next] (lines 248-307). The assignment to [played_idx] comes before
    the lookups of the reply. *)
Definition next (channel : Z) (st : State) : State * Reply :=
  let card := titled "Move to the next song" in
  if is_empty (song_list st) then
    (st, Card (card [("Queue Empty", "Tidak ada lagu dalam queue!")] None))
  else if bool_decide (played_idx st = 0) && bool_decide (current_idx st >= 1) then
    let st' := set_played_idx 1 st in
    (st', reply_of (
       cur ← song_list st' !! played_idx st';
       nxt ← (if bool_decide (current_idx st' > 1) then
                s ← song_list st' !! (played_idx st' + 1);
                Some [("Next Song", fmt s)]
              else Some []);
       Some (card (("Now Playing", fmt cur) :: nxt) None)))
  else if bool_decide (played_idx st < current_idx st) then
    let st' := set_played_idx (played_idx st + 1) st in
    (st', reply_of (
       cur ← song_list st' !! played_idx st';
       nxt ← (if bool_decide (played_idx st' < current_idx st') then
                s ← song_list st' !! (played_idx st' + 1);
                Some [("Next Song", fmt s)]
              else Some [("Next Song", "Tidak ada lagu selanjutnya!")]);
       Some (card (("Now Playing", fmt cur) :: nxt) None)))
  else
    (st, Card (card [("Info", "Sudah di lagu terakhir!")] None)).

(** [add] (lines 309-328). [song.split("-")[1]] raises [IndexError]
    before anything is assigned. *)
Definition add (channel : Z) (song : string) (st : State) : State * Reply :=
  if bool_decide (is_Some (active_streams st !! channel)) then
    match split "-" song !! 0%nat, split "-" song !! 1%nat with
    | Some part0, Some nama_request =>
        let song_list_format := "(Trakteer) - " +:+ part0 in
        (append (song_list_format, nama_request) st,
         Card (request_embed song_list_format nama_request
                             "Trakteer Request Chat"))
    | _, _ => (st, Raised)
    end
  else (st, Text "❌ No active live chat monitoring in this channel.").

(** [list_song] (lines 330-419): first the numbers to show. *)
Definition songs_to_show (st : State) : list Z :=
  let total_songs := len (song_list st) in
  if bool_decide (total_songs <= 24) then
    range 1 (current_idx st + 1)
  else
    let played :=
      if bool_decide (played_idx st > 0) then
        let start_played := Z.max 1 (played_idx st - 2) in
        range start_played (played_idx st + 1)
      else [] in
    let shown :=
      (played ++ (if bool_decide (played_idx st < current_idx st) then
                    range (played_idx st + 1) (current_idx st + 1)
                  else []))%list in
    if bool_decide (Z.of_nat (length shown) > 23) then
      if bool_decide (played_idx st > 0) then
        let max_next_songs := Z.min 22 (current_idx st - played_idx st) in
        ([played_idx st]
           ++ range (played_idx st + 1) (played_idx st + 1 + max_next_songs))%list
      else
        let max_songs := Z.min 23 (current_idx st) in
        range 1 (max_songs + 1)
    else shown.

(** The fields one iteration of the display loop adds. *)
Definition song_fields (st : State) (song_id : Z)
    : option (list (string * string)) :=
  let show_gap :=
    bool_decide (len (song_list st) > 24) && bool_decide (played_idx st > 3) in
  let gap :=
    if show_gap && bool_decide (song_id = played_idx st)
       && bool_decide (played_idx st > 3) then
      [("...", "⏸️ " +:+ str (played_idx st - 3) +:+ " songs skipped for display")]
    else [] in
  s ← song_list st !! song_id;
  Some (gap ++
        [ if bool_decide (song_id < played_idx st) then
            ("#" +:+ str song_id, "✅ " +:+ fmt s)
          else if bool_decide (song_id = played_idx st) then
            ("#" +:+ str song_id +:+ " 🎵", "▶️ " +:+ fmt s)
          else
            ("#" +:+ str song_id, "⏳ " +:+ fmt s) ])%list.

Definition list_song (channel : Z) (st : State) : Reply :=
  reply_of (
    fs ← (if is_empty (song_list st) then
            Some [("Queue Status", "Tidak ada lagu dalam queue!")]
          else mjoin <$> mapM (song_fields st) (songs_to_show st));
    Some (titled "List song" fs
            (Some (if negb (is_empty (song_list st)) then
                     str (played_idx st) +:+ "/" +:+ str (len (song_list st))
                       +:+ " played | Total: " +:+ str (len (song_list st))
                       +:+ " songs"
                   else "No songs in queue")))).

(** ** [delete_song] (lines 421-502) *)

(** The variables of the renumbering loop (lines 462-476). *)
Record Rebuild := mkRebuild {
  rb_song_list : gmap Z Song;
  new_id : Z;
  new_played_id : Z
}.

(** The body of [for old_id in range(1, current_idx + 1)]. *)
Definition rebuild_step (old_song_list : gmap Z Song) (old_played_id : Z)
    (r : Rebuild) (old_id : Z) : Rebuild :=
  match old_song_list !! old_id with
  | Some entry =>
      {| rb_song_list := <[new_id r := entry]> (rb_song_list r);
         new_played_id :=
           if bool_decide (old_id = old_played_id) then new_id r
           else if bool_decide (old_id < old_played_id)
                   && bool_decide (new_played_id r = 0) then new_id r
           else new_played_id r;
         new_id := new_id r + 1 |}
  | None => r
  end.

(** Lines 452-484: what a deletion that passed the four checks does to
    the state. [st] is the state before [del song_list[song_id]]. *)
Definition delete_entry (song_id : Z) (st : State) : State :=
  let st1 := set_song_list (delete song_id (song_list st)) st in
  let st2 :=
    if bool_decide (song_id < played_idx st1)
    then set_played_idx (played_idx st1 - 1) st1 else st1 in
  if negb (is_empty (song_list st2)) then
    let old_song_list := song_list st2 in
    let r := foldl (rebuild_step old_song_list (played_idx st2))
                   {| rb_song_list := ∅; new_id := 1; new_played_id := 0 |}
                   (range 1 (current_idx st2 + 1)) in
    set_played_idx (new_played_id r)
      (set_current_idx (len (rb_song_list r))
         (set_song_list (rb_song_list r) st2))
  else
    set_played_idx 0 (set_current_idx 0 st2).

Definition msg_queue_empty : string :=
  "❌ Queue is empty! No songs to delete.".
Definition msg_invalid_id (hi : Z) : string :=
  "❌ Invalid song ID! Please use a number between 1 and " +:+ str hi.
Definition msg_not_found (song_id : Z) : string :=
  "❌ Song #" +:+ str song_id +:+ " not found in queue!".
Definition msg_protected : string :=
  "❌ Cannot delete the currently playing song! Use `!next` to skip it.".

Definition deleted_embed (song_id : Z) (deleted_song : Song) (st : State)
    : Embed :=
  titled "Song Deleted"
    [ ("Deleted Song #" +:+ str song_id, "🗑️ " +:+ fmt deleted_song);
      ("Queue Status", "Remaining songs: " +:+ str (len (song_list st))) ]
    None.

Definition delete_song (channel : Z) (song_id : Z) (st : State)
    : State * Reply :=
  if is_empty (song_list st) then (st, Text msg_queue_empty)
  else if bool_decide (song_id < 1) || bool_decide (song_id > current_idx st)
  then (st, Text (msg_invalid_id (current_idx st)))
  else match song_list st !! song_id with
       | None => (st, Text (msg_not_found song_id))
       | Some deleted_song =>
           if bool_decide (song_id = played_idx st) then (st, Text msg_protected)
           else let st' := delete_entry song_id st in
                (st', Card (deleted_embed song_id deleted_song st'))
       end.

(** ** Sessions (lines 143-210) *)

(** [on_ready]: the client is built when the key is set. *)
Definition on_ready (api_key_set : bool) (st : State) : State :=
  if api_key_set then set_youtube_client true st else st.

(** [start_live_chat]. The third component is the task handed to
    [bot.loop.create_task]: the poller of [video_id] for the channel. It
    starts running after the handler. *)
Definition start_live_chat (channel : Z) (url : string) (st : State)
    : State * Reply * option (string * Z) :=
  if negb (youtube_client st) then
    (st, Text "❌ YouTube API is not configured. Please check your API key.",
     None)
  else match extract_youtube_id url with
       | None =>
           (st, Text "❌ That doesn't look like a valid YouTube URL.", None)
       | Some video_id =>
           if bool_decide (is_Some (active_streams st !! channel)) then
             (st, Text "❌ Already monitoring a live chat in this channel. Use `!stop_live_chat` first.",
              None)
           else
             (set_active_streams (<[channel := video_id]> (active_streams st)) st,
              Text ("🔄 Starting to monitor live chat for video: `"
                    +:+ video_id +:+ "`"),
              Some (video_id, channel))
       end.

Definition stop_live_chat (channel : Z) (st : State) : State * Reply :=
  if negb (bool_decide (is_Some (active_streams st !! channel))) then
    (st, Text "❌ No active live chat monitoring in this channel.")
  else
    (set_active_streams (delete channel (active_streams st)) st,
     Text "🛑 Stopped live chat monitoring for this channel.").

Definition live_status (channel : Z) (st : State) : Reply :=
  match active_streams st !! channel with
  | Some video_id =>
      Text ("✅ Currently monitoring live chat for video: `"
            +:+ video_id +:+ "`")
  | None => Text "❌ No active live chat monitoring in this channel."
  end.

(** ** The chat poller, [fetch_live_chat_messages] (lines 70-141) *)

(** One element of [response["items"]]: [item["id"]],
    [item["snippet"]["displayMessage"]], [item["authorDetails"]["displayName"]]. *)
Record ChatItem := mkItem {
  item_id : string;
  displayMessage : string;
  displayName : string
}.

(** The test of line 107, without its negation. *)
Definition is_request (message_text : string) : bool :=
  startswith "!req" (lower message_text).

(** The body of [for item in response["items"]] (lines 94-125):
    [processed_messages] is the poller's own set; the embed is what is
    sent to the channel, if anything. *)
Definition process_item (item : ChatItem) (processed_messages : gset string)
    (st : State) : gset string * State * option Embed :=
  let message_id := item_id item in
  if bool_decide (message_id ∈ processed_messages) then
    (processed_messages, st, None)
  else
    let processed_messages := processed_messages ∪ {[message_id]} in
    let message_text := displayMessage item in
    let author := displayName item in
    if negb (is_request message_text) then (processed_messages, st, None)
    else
      let song_list_temp := str_drop 5 message_text in
      (processed_messages,
       append (song_list_temp, author) st,
       Some (request_embed message_text author "YouTube Live Chat")).

(** The condition of the [while] loop (line 86). *)
Definition still_active (channel : Z) (video_id : string) (st : State) : bool :=
  bool_decide (active_streams st !! channel = Some video_id).

(** The clean-up after the loop (lines 138-139). *)
Definition poller_cleanup (channel : Z) (st : State) : State :=
  if bool_decide (is_Some (active_streams st !! channel)) then
    set_active_streams (delete channel (active_streams st)) st
  else st.

(** ** Runs of the bot *)

(** What can happen to the state, one step at a time: a command in a
    channel, one item handled by a poller (with whatever the poller has
    already seen), the end of a poller, the start-up event. *)
Inductive Op :=
| OpReady (api_key_set : bool)
| OpStart (channel : Z) (url : string)
| OpStop (channel : Z)
| OpStatus (channel : Z)
| OpCurrent (channel : Z)
| OpNext (channel : Z)
| OpAdd (channel : Z) (song : string)
| OpList (channel : Z)
| OpDelete (channel : Z) (song_id : Z)
| OpItem (item : ChatItem) (processed_messages : gset string)
| OpCleanup (channel : Z).

Definition step (st : State) (op : Op) : State :=
  match op with
  | OpReady k => on_ready k st
  | OpStart c url => (start_live_chat c url st).1.1
  | OpStop c => (stop_live_chat c st).1
  | OpStatus c => st
  | OpCurrent c => st
  | OpNext c => (next c st).1
  | OpAdd c song => (add c song st).1
  | OpList c => st
  | OpDelete c k => (delete_song c k st).1
  | OpItem item seen => (process_item item seen st).1.2
  | OpCleanup c => poller_cleanup c st
  end.

Definition run (ops : list Op) : State := foldl step init ops.

(** ** The invariants of the queue *)

(** Density: the keys of [song_list] are exactly [1..current_idx]. *)
Definition dense (st : State) : Prop :=
  ∀ i, is_Some (song_list st !! i) ↔ 1 ≤ i ≤ current_idx st.

(** Bounds: [0 <= played_idx <= N], [N] the number of entries. *)
Definition bounded (st : State) : Prop :=
  0 ≤ played_idx st ≤ len (song_list st).

(** The counter is the number of entries. *)
Definition counted (st : State) : Prop :=
  current_idx st = len (song_list st).

(** Density and bounds together, the bound taken against the counter:
    the invariant every step keeps. *)
Definition Inv (st : State) : Prop :=
  dense st ∧ 0 ≤ played_idx st ≤ current_idx st.

(** The queue holds the entries [l], in this order, under [1..length l]. *)
Definition holds (st : State) (l : list Song) : Prop :=
  song_list st = map_seqZ (M:=gmap Z Song) 1 l ∧ current_idx st = Z.of_nat (length l).

(** The numbers issued by appending [reqs] one after the other. *)
Fixpoint issued (st : State) (reqs : list Song) : list Z :=
  match reqs with
  | [] => []
  | e :: reqs' => current_idx (append e st) :: issued (append e st) reqs'
  end.

(** The state after appending [reqs] one after the other. *)
Definition appends (st : State) (reqs : list Song) : State :=
  foldl (λ st e, append e st) st reqs.

(** The request a step hands to the queue, if it hands one: the poller
    forwards a new item whose text is a request (lines 97-119), [add]
    the two parts of its argument when the channel has a session (lines
    313-316); no other step appends. *)
Definition request_of (st : State) (op : Op) : option Song :=
  match op with
  | OpItem item seen =>
      if bool_decide (item_id item ∈ seen) then None
      else if is_request (displayMessage item)
           then Some (str_drop 5 (displayMessage item), displayName item)
      else None
  | OpAdd channel song =>
      if bool_decide (is_Some (active_streams st !! channel)) then
        match split "-" song with
        | part0 :: nama_request :: _ =>
            Some ("(Trakteer) - " +:+ part0, nama_request)
        | _ => None
        end
      else None
  | _ => None
  end.

(** The requests of a sequence of steps from [st], in arrival order. *)
Fixpoint requests (st : State) (ops : list Op) : list Song :=
  match ops with
  | [] => []
  | op :: ops' => (option_list (request_of st op) ++ requests (step st op) ops')%list
  end.

(** The numbers assigned along a sequence of steps from [st]: the
    counter right after each step that hands over a request. *)
Fixpoint numbers (st : State) (ops : list Op) : list Z :=
  match ops with
  | [] => []
  | op :: ops' =>
      match request_of st op with
      | Some _ => current_idx (step st op) :: numbers (step st op) ops'
      | None => numbers (step st op) ops'
      end
  end.

(** Requests by both paths, and steps that append nothing in between. *)
Definition mixed_requests : list Op :=
  [ OpReady true; OpStart 7 "https://youtu.be/abcdefghijk";
    OpItem (mkItem "m1" "!req Song A" "Alice") ∅;
    OpAdd 7 "Miniatur-Ryoda";
    OpNext 7;
    OpItem (mkItem "m1" "!req Song A" "Alice") {["m1"]};
    OpAdd 8 "Hoshi-Lily";
    OpItem (mkItem "m2" "hello" "Bob") {["m1"]};
    OpItem (mkItem "m3" "!REQ Song B" "Bob") {["m1"; "m2"]} ].

(** [!next] typed [n] times. *)
Definition advance (channel : Z) (n : nat) (st : State) : State :=
  Nat.iter n (λ st, (next channel st).1) st.

(** ** Auxiliary definitions of the statements *)

(** The entries the renumbering loop meets, in the order it meets them. *)
Definition met (old_song_list : gmap Z Song) (ids : list Z) : list Song :=
  omap (λ old_id, old_song_list !! old_id) ids.

(** The value the renumbering loop of [delete_song] leaves in [played_idx]
    when [k] is deleted from a dense queue whose played index is [p], in
    closed form (lemma [delete_entry_played] derives it from the loop). *)
Definition played_after_delete (k p : Z) : Z :=
  if decide (k < p) then
    if decide (k + 1 < p) then p - 2
    else if decide (k = 1) then 0 else 1
  else p.

(** The variables of the renumbering loop before its first iteration. *)
Definition rebuild_start : Rebuild :=
  {| rb_song_list := ∅; new_id := 1; new_played_id := 0 |}.

(** The deletion went through: the reply is the confirmation card. *)
Definition deleted (r : Reply) : Prop := ∃ e, r = Card e.

(** The card [next] sends, with its fields. *)
Definition next_card : list (string * string) → Reply :=
  λ fs, Card (titled "Move to the next song" fs None).

(** The reply of [next] at the last song. *)
Definition at_end : Reply := next_card [("Info", "Sudah di lagu terakhir!")].

(** The scenario of the specification: a session in channel 7, two
    requests from the live chat, [!next] twice. *)
Definition song_a : Song := ("Song A", "Alice").
Definition song_b : Song := ("Song B", "Bob").

Definition scenario : list Op :=
  [ OpReady true; OpStart 7 "https://youtu.be/abcdefghijk";
    OpItem (mkItem "m1" "!req Song A" "Alice") ∅;
    OpItem (mkItem "m2" "!REQ Song B" "Bob") {["m1"]};
    OpNext 7; OpNext 7 ].

(** A session in channel 1 and none in channel 2. *)
Definition one_session : State :=
  run [OpReady true; OpStart 1 "https://youtu.be/abcdefghijk"].

(** An item is forwarded when handling it appends an entry. *)
Definition forwarded (item : ChatItem) (seen : gset string) (st : State)
    : Prop :=
  ∃ entry, (process_item item seen st).1.2 = append entry st.

(** A request as it is usually written. *)
Definition item_song_a : ChatItem := mkItem "m1" "!req Song A" "Alice".

(** ** The rest of the poller *)

(** The [for] loop over [response["items"]] (lines 93-125) when no
    command runs between two items: the set of handled ids, the state
    and the embeds sent, in order. *)
Definition process_items_step (acc : gset string * State * list Embed)
    (item : ChatItem) : gset string * State * list Embed :=
  let r := process_item item acc.1.1 acc.1.2 in
  (r.1.1, r.1.2, (acc.2 ++ option_list r.2)%list).

Definition process_items (items : list ChatItem) (seen : gset string)
    (st : State) : gset string * State * list Embed :=
  foldl process_items_step (seen, st, []) items.

(** What [liveChatMessages().list(...).execute()] gives: the items of a
    page with its [nextPageToken], or an exception with its text. *)
Inductive Response :=
| Page (items : list ChatItem) (nextPageToken : option string)
| Failure (e : string).

(** The local variables of a running poller: [live_chat_id],
    [next_page_token], [processed_messages]. *)
Record Poller := mkPoller {
  p_live_chat_id : string;
  p_next_page_token : option string;
  p_processed : gset string
}.

(** Lines 74-83: the poller before its loop. [live_chat_id] is what
    [get_live_chat_id] returned; [None] and the empty string are false.
    The early [return] of line 78 does not pass through the clean-up of
    lines 138-139. *)
Definition fetch_begin (live_chat_id : option string) (video_id : string)
    (st : State) : State * Reply * option Poller :=
  match live_chat_id with
  | Some id =>
      if bool_decide (id = "") then
        (st, Text "❌ This video doesn't have an active live chat or isn't currently live.",
         None)
      else
        (st, Text ("✅ Started monitoring live chat for video: `"
                   +:+ video_id +:+ "`"),
         Some {| p_live_chat_id := id; p_next_page_token := None;
                 p_processed := ∅ |})
  | None =>
      (st, Text "❌ This video doesn't have an active live chat or isn't currently live.",
       None)
  end.

(** One pass of the [while] loop (lines 86-131) and, when the loop is
    left, lines 133-141. The request is made only if the condition holds.
    The poller that goes on is returned; the sleep between two passes is
    not part of the state. *)
Definition fetch_iteration (response : Response) (channel : Z)
    (video_id : string) (p : Poller) (st : State)
    : State * list Reply * option Poller :=
  if still_active channel video_id st then
    match response with
    | Page items token =>
        let r := process_items items (p_processed p) st in
        (r.1.2, Card <$> r.2,
         Some {| p_live_chat_id := p_live_chat_id p;
                 p_next_page_token := token;
                 p_processed := r.1.1 |})
    | Failure e =>
        (poller_cleanup channel st,
         [ Text ("❌ Error while fetching live chat: " +:+ e);
           Text "🛑 Stopped monitoring live chat." ],
         None)
    end
  else
    (poller_cleanup channel st, [Text "🛑 Stopped monitoring live chat."], None).

(** ** Vocabulary of the further properties *)

(** Every character of [s] satisfies [P]. *)
Fixpoint all_chars (P : ascii → bool) (s : string) : bool :=
  match s with
  | EmptyString => true
  | String c s' => P c && all_chars P s'
  end.

(** [c in s] *)
Definition has_char (c : ascii) (s : string) : bool :=
  negb (all_chars (λ a, negb (Ascii.eqb a c)) s).

(** The eleven characters after the leftmost place where [lit] is
    followed by eleven characters of the class: a search without the
    optional groups. *)
Fixpoint find_after (lit s : string) : option string :=
  match strip_prefix lit s ≫= take_id 11 with
  | Some id => Some id
  | None => match s with
            | EmptyString => None
            | String _ s' => find_after lit s'
            end
  end.

(** The literals of the four patterns. *)
Definition literals : list string := literal <$> patterns.

(** A queue of thirty entries, nothing played. *)
Definition long_queue : State := appends init (replicate 30 song_a).

(** The step is a [delete] command. *)
Definition is_delete (op : Op) : bool :=
  match op with OpDelete _ _ => true | _ => false end.

(** The field [list_song] shows for the number [i] when nothing is
    skipped: its mark tells played, playing or upcoming. *)
Definition row (st : State) (i : Z) (s : Song) : string * string :=
  if bool_decide (i < played_idx st) then ("#" +:+ str i, "✅ " +:+ fmt s)
  else if bool_decide (i = played_idx st)
       then ("#" +:+ str i +:+ " 🎵", "▶️ " +:+ fmt s)
  else ("#" +:+ str i, "⏳ " +:+ fmt s).

(** * Properties *)

(** ** The embedding on concrete inputs *)

Example extract_watch :
  extract_youtube_id "https://www.youtube.com/watch?v=dQw4w9WgXcQ&t=1"
    = Some "dQw4w9WgXcQ".
Proof. reflexivity. Qed.

Example extract_short : extract_youtube_id "youtu.be/abcdefghijk" = Some "abcdefghijk".
Proof. reflexivity. Qed.

Example extract_bad_url : extract_youtube_id "bad-url" = None.
Proof. reflexivity. Qed.

Example split_add_argument : split "-" "Miniatur-Ryoda" = ["Miniatur"; "Ryoda"].
Proof. reflexivity. Qed.

Example split_no_separator : split "-" "Miniatur" = ["Miniatur"].
Proof. reflexivity. Qed.

Example is_request_upper_case : is_request "!REQ Song B" = true.
Proof. reflexivity. Qed.

Example is_request_other : is_request "hello !req" = false.
Proof. reflexivity. Qed.

Example str_drop_wide_blank : str_drop 5 "!req　Song" = "Song".
Proof. reflexivity. Qed.

Example str_drop_accent : str_drop 5 "!reqéa" = "a".
Proof. reflexivity. Qed.

Example str_len_accent : str_len "!reqé" = 5%nat.
Proof. reflexivity. Qed.

Example request_with_wide_blank :
  song_list (process_item (mkItem "m1" "!req　Song" "Alice") ∅ init).1.2 !! 1
    = Some ("Song", "Alice").
Proof. reflexivity. Qed.

Example add_without_separator :
  add 1 "Miniatur" one_session = (one_session, Raised).
Proof. reflexivity. Qed.

Example scenario_current_song :
  current_song 7 (run scenario)
    = Card (titled "Lily Current Song" [("Current Song", "Song B - Bob")] None).
Proof. reflexivity. Qed.

(** ** Maps that hold a list *)

Lemma size_map_seqZ (l : list Song) (start : Z) :
  size (map_seqZ (M:=gmap Z Song) start l) = length l.
Proof.
  revert start. induction l as [|x l IH]; intros start.
  - apply map_size_empty.
  - rewrite map_seqZ_cons, map_size_insert_None, IH; [done|].
    apply lookup_map_seqZ_None. lia.
Qed.

Lemma dense_map_seqZ (n : nat) (m : gmap Z Song) :
  (∀ i, is_Some (m !! i) ↔ 1 ≤ i ≤ Z.of_nat n) →
  ∃ l, length l = n ∧ m = map_seqZ (M:=gmap Z Song) 1 l.
Proof.
  revert m. induction n as [|n IH]; intros m Hm.
  - exists []. split; [done|]. apply map_empty. intros i.
    apply eq_None_not_Some. rewrite Hm. lia.
  - destruct (proj2 (Hm (Z.of_nat (S n))) ltac:(lia)) as [x Hx].
    destruct (IH (delete (Z.of_nat (S n)) m)) as (l & Hl & Hdel).
    { intros i. rewrite lookup_delete. case_decide as Hi.
      - subst i. split; [by intros [? ?]|lia].
      - rewrite Hm. lia. }
    exists (l ++ [x])%list. split.
    + rewrite length_app. simpl. lia.
    + rewrite map_seqZ_snoc, <- Hdel, Hl.
      replace (1 + Z.of_nat n) with (Z.of_nat (S n)) by lia.
      by rewrite insert_delete_id.
Qed.

Lemma holds_dense st l : holds st l → dense st.
Proof.
  intros [Hm Hn] i. rewrite Hm, Hn, lookup_map_seqZ_is_Some. lia.
Qed.

Lemma dense_holds st :
  dense st → 0 ≤ current_idx st → ∃ l, holds st l.
Proof.
  intros Hd Hn.
  destruct (dense_map_seqZ (Z.to_nat (current_idx st)) (song_list st))
    as (l & Hl & Hm).
  { intros i. rewrite (Hd i). lia. }
  exists l. split; [done|lia].
Qed.

Lemma holds_len st l : holds st l → len (song_list st) = Z.of_nat (length l).
Proof. intros [-> _]. unfold len. by rewrite size_map_seqZ. Qed.

Lemma dense_empty st : dense st → current_idx st < 1 → song_list st = ∅.
Proof.
  intros Hd Hn. apply map_empty. intros i.
  apply eq_None_not_Some. rewrite (Hd i). lia.
Qed.

Lemma dense_counted st : dense st → 0 ≤ current_idx st → counted st.
Proof.
  intros Hd Hn. destruct (dense_holds st Hd Hn) as [l Hl].
  unfold counted. rewrite (holds_len _ _ Hl). apply Hl.
Qed.

Lemma is_empty_true m : is_empty m = true ↔ m = ∅.
Proof. unfold is_empty. by rewrite bool_decide_eq_true. Qed.

Lemma is_empty_false m : is_empty m = false ↔ m ≠ ∅.
Proof. unfold is_empty. by rewrite bool_decide_eq_false. Qed.

Lemma len_empty_iff m : len m = 0 ↔ m = ∅.
Proof.
  unfold len. rewrite <- map_size_empty_iff. lia.
Qed.

Lemma len_nonneg m : 0 ≤ len m.
Proof. unfold len. lia. Qed.

(** An invariant state has its counter at the number of entries and its
    played index within them. *)
Lemma Inv_counted st : Inv st → counted st.
Proof. intros [Hd Hb]. apply dense_counted; [done|lia]. Qed.

Lemma Inv_bounded st : Inv st → bounded st.
Proof.
  intros HI. pose proof (Inv_counted st HI) as Hc. destruct HI as [_ Hb].
  unfold bounded, counted in *. lia.
Qed.

Lemma Inv_holds st : Inv st → ∃ l, holds st l.
Proof. intros [Hd Hb]. apply dense_holds; [done|lia]. Qed.

Lemma Inv_init : Inv init.
Proof.
  split; [|simpl; lia]. intros i. simpl. rewrite lookup_empty.
  split; [by intros [? ?]|lia].
Qed.

(** ** Appending *)

Lemma append_current_idx e st :
  current_idx (append e st) = current_idx st + 1.
Proof. reflexivity. Qed.

Lemma append_song_list e st :
  song_list (append e st) = <[current_idx st + 1 := e]> (song_list st).
Proof. reflexivity. Qed.

Lemma append_played_idx e st : played_idx (append e st) = played_idx st.
Proof. reflexivity. Qed.

Lemma append_active_streams e st :
  active_streams (append e st) = active_streams st.
Proof. reflexivity. Qed.

Lemma append_holds e st l : holds st l → holds (append e st) (l ++ [e]).
Proof.
  intros [Hm Hn]. split.
  - rewrite append_song_list, map_seqZ_snoc, Hm, Hn. f_equal. lia.
  - rewrite append_current_idx, Hn, length_app. simpl. lia.
Qed.

Lemma append_Inv e st : Inv st → Inv (append e st).
Proof.
  intros HI. destruct (Inv_holds st HI) as [l Hl]. destruct HI as [_ Hb].
  split.
  - eapply holds_dense, append_holds, Hl.
  - rewrite append_played_idx, append_current_idx. lia.
Qed.

Lemma issued_from st reqs :
  issued st reqs = seqZ (current_idx st + 1) (Z.of_nat (length reqs)).
Proof.
  revert st. induction reqs as [|e reqs IH]; intros st; [done|].
  cbn [issued length]. rewrite IH, append_current_idx.
  rewrite (seqZ_cons (current_idx st + 1)) by lia.
  do 2 f_equal; lia.
Qed.

Lemma appends_holds st l reqs :
  holds st l → holds (appends st reqs) (l ++ reqs).
Proof.
  revert st l. induction reqs as [|e reqs IH]; intros st l Hl.
  - by rewrite app_nil_r.
  - cbn [appends foldl]. rewrite (assoc_L _ l [e] reqs : l ++ e :: reqs = (l ++ [e]) ++ reqs)%list.
    apply IH, append_holds, Hl.
Qed.

(** The two places that append do exactly [append]. *)
Lemma process_item_new item seen st :
  item_id item ∉ seen →
  (process_item item seen st).1.2 =
    if is_request (displayMessage item)
    then append (str_drop 5 (displayMessage item), displayName item) st
    else st.
Proof.
  intros Hnew. unfold process_item.
  rewrite bool_decide_eq_false_2 by done.
  by destruct (is_request (displayMessage item)).
Qed.

Lemma process_item_seen item seen st :
  item_id item ∈ seen → process_item item seen st = (seen, st, None).
Proof.
  intros Hin. unfold process_item. by rewrite bool_decide_eq_true_2.
Qed.

Lemma add_active channel song st part0 nama_request rest :
  is_Some (active_streams st !! channel) →
  split "-" song = part0 :: nama_request :: rest →
  (add channel song st).1 = append ("(Trakteer) - " +:+ part0, nama_request) st.
Proof.
  intros Hact Hsplit. unfold add.
  rewrite bool_decide_eq_true_2 by done. by rewrite Hsplit.
Qed.

Lemma add_cases channel song st :
  (add channel song st).1 = st ∨ ∃ e, (add channel song st).1 = append e st.
Proof.
  unfold add. case_bool_decide; [|by left].
  destruct (split "-" song !! 0%nat), (split "-" song !! 1%nat); eauto.
Qed.

Lemma process_item_cases item seen st :
  (process_item item seen st).1.2 = st
  ∨ ∃ e, (process_item item seen st).1.2 = append e st.
Proof.
  unfold process_item. case_bool_decide; [by left|].
  destruct (is_request _); simpl; eauto.
Qed.

(** ** The renumbering loop of [delete_song] *)

Section Rebuild.
Variable old_song_list : gmap Z Song.
Variable old_played_id : Z.

Let loop := foldl (rebuild_step old_song_list old_played_id).

Lemma met_cons (old_id : Z) (ids : list Z) :
  met old_song_list (old_id :: ids) =
    match old_song_list !! old_id with
    | Some entry => entry :: met old_song_list ids
    | None => met old_song_list ids
    end.
Proof. reflexivity. Qed.

(** The loop writes the entries it meets under consecutive numbers. *)
Lemma loop_song_list (ids : list Z) (r : Rebuild) (done_ : list Song) :
  rb_song_list r = map_seqZ 1 done_ →
  new_id r = 1 + Z.of_nat (length done_) →
  rb_song_list (loop r ids) = map_seqZ 1 (done_ ++ met old_song_list ids)
  ∧ new_id (loop r ids)
      = 1 + Z.of_nat (length (done_ ++ met old_song_list ids)).
Proof.
  revert r done_. induction ids as [|old_id ids IH]; intros r done_ Hm Hn.
  - simpl. by rewrite app_nil_r.
  - change (loop r (old_id :: ids))
      with (loop (rebuild_step old_song_list old_played_id r old_id) ids).
    rewrite met_cons. unfold rebuild_step.
    destruct (old_song_list !! old_id) as [entry|] eqn:Hold.
    + rewrite (assoc_L _ done_ [entry] _
               : done_ ++ entry :: _ = (done_ ++ [entry]) ++ _)%list.
      apply IH; simpl.
      * rewrite map_seqZ_snoc, Hm, Hn. done.
      * rewrite Hn, length_app. simpl. lia.
    + by apply IH.
Qed.

(** Over a stretch [a, a+1, ..., a+n-1] of numbers that are all in
    use, [new_played_id] ends as follows. *)
Lemma loop_played_stretch (n : nat) (a : Z) (r : Rebuild) :
  (∀ i, a ≤ i < a + Z.of_nat n → is_Some (old_song_list !! i)) →
  1 ≤ new_id r →
  new_id (loop r (seqZ a (Z.of_nat n))) = new_id r + Z.of_nat n
  ∧ new_played_id (loop r (seqZ a (Z.of_nat n))) =
      if decide (a ≤ old_played_id < a + Z.of_nat n)
      then new_id r + (old_played_id - a)
      else if decide (old_played_id < a ∨ n = 0%nat) then new_played_id r
      else if decide (new_played_id r = 0) then new_id r
      else new_played_id r.
Proof.
  revert a r. induction n as [|n IH]; intros a r Hin Hid.
  - rewrite seqZ_nil by lia. simpl.
    split; [lia|]. repeat case_decide; lia || done.
  - rewrite seqZ_cons by lia. cbn [loop foldl].
    destruct (Hin a ltac:(lia)) as [entry Hentry].
    replace (Z.succ a) with (a + 1) by lia.
    replace (Z.pred (Z.of_nat (S n))) with (Z.of_nat n) by lia.
    set (r1 := rebuild_step old_song_list old_played_id r a).
    assert (new_id r1 = new_id r + 1) as Hid1.
    { unfold r1, rebuild_step. by rewrite Hentry. }
    assert (new_played_id r1 =
              if decide (a = old_played_id) then new_id r
              else if decide (a < old_played_id ∧ new_played_id r = 0)
                   then new_id r else new_played_id r) as Hp1.
    { unfold r1, rebuild_step. rewrite Hentry. cbn [new_played_id].
      repeat (case_bool_decide || case_decide); simpl; lia || done. }
    destruct (IH (a + 1) r1) as [IHid IHplayed]; [|lia|].
    { intros i Hi. apply Hin. lia. }
    fold loop in IHid, IHplayed |- *.
    rewrite IHid, IHplayed, Hid1, Hp1. split; [lia|].
    repeat case_decide; lia.
Qed.

(** A number that is not in use is passed over. *)
Lemma loop_skip (k : Z) (r : Rebuild) :
  old_song_list !! k = None → loop r [k] = r.
Proof. intros Hk. cbn. unfold rebuild_step. by rewrite Hk. Qed.
End Rebuild.

(** ** What a deletion does to a dense queue *)

Lemma met_stretch (m : gmap Z Song) (xs : list Song) (a : Z) :
  (∀ (j : nat) x, xs !! j = Some x → m !! (a + Z.of_nat j) = Some x) →
  met m (seqZ a (Z.of_nat (length xs))) = xs.
Proof.
  revert a. induction xs as [|x xs IH]; intros a Hm.
  - by rewrite seqZ_nil.
  - rewrite seqZ_cons by (simpl; lia). rewrite met_cons.
    pose proof (Hm 0%nat x eq_refl) as Hhead.
    rewrite Z.add_0_r in Hhead. rewrite Hhead. f_equal.
    replace (Z.pred (Z.of_nat (length (x :: xs))))
      with (Z.of_nat (length xs)) by (simpl; lia).
    apply IH. intros j y Hj.
    replace (Z.succ a + Z.of_nat j) with (a + Z.of_nat (S j)) by lia.
    by apply Hm.
Qed.

Lemma met_app (m : gmap Z Song) (ids1 ids2 : list Z) :
  met m (ids1 ++ ids2) = (met m ids1 ++ met m ids2)%list.
Proof. apply omap_app. Qed.

(** The numbers [1..N] around [k]. *)
Lemma range_around (l1 l2 : list Song) (x : Song) :
  range 1 (Z.of_nat (length (l1 ++ x :: l2)) + 1) =
    (seqZ 1 (Z.of_nat (length l1))
       ++ [1 + Z.of_nat (length l1)]
       ++ seqZ (1 + Z.of_nat (length l1) + 1) (Z.of_nat (length l2)))%list.
Proof.
  unfold range. rewrite length_app. cbn [length].
  replace (Z.of_nat (length l1 + S (length l2)) + 1 - 1)
    with (Z.of_nat (length l1) + (1 + Z.of_nat (length l2))) by lia.
  rewrite seqZ_app by lia. f_equal.
  rewrite (seqZ_cons (1 + _)) by lia. simpl. do 2 f_equal; lia.
Qed.

(** [delete_entry] with its intermediate states written out. *)
Lemma delete_entry_unfold (k : Z) (st : State) :
  let old := delete k (song_list st) in
  let opi := if decide (k < played_idx st)
             then played_idx st - 1 else played_idx st in
  let r := foldl (rebuild_step old opi) rebuild_start
                 (range 1 (current_idx st + 1)) in
  delete_entry k st =
    if is_empty old
    then mkState old 0 0 (active_streams st) (youtube_client st)
    else mkState (rb_song_list r) (len (rb_song_list r)) (new_played_id r)
                 (active_streams st) (youtube_client st).
Proof.
  intros old opi r. unfold delete_entry, r, opi, old, rebuild_start.
  cbn [song_list played_idx set_song_list].
  case_bool_decide; case_decide; try lia;
    cbn [song_list played_idx current_idx active_streams youtube_client
         set_song_list set_played_idx set_current_idx];
    by destruct (is_empty (delete k (song_list st))).
Qed.

(** The entry [x] at number [k = 1 + length l1] is deleted from a queue
    that holds [l1 ++ x :: l2]; [old] is the dictionary after
    [del song_list[k]]. *)
Section DeleteMiddle.
Context (st : State) (l1 l2 : list Song) (x : Song).
Context (Hholds : holds st (l1 ++ x :: l2)).

Local Abbreviation k := (1 + Z.of_nat (length l1)).
Local Abbreviation old := (delete k (song_list st)).

Lemma old_at : old !! k = None.
Proof. apply lookup_delete_eq. Qed.

Lemma old_before (j : nat) (y : Song) :
  l1 !! j = Some y → old !! (1 + Z.of_nat j) = Some y.
Proof.
  destruct Hholds as [Hm _].
  intros Hj. pose proof (lookup_lt_Some _ _ _ Hj) as Hlt.
  rewrite lookup_delete_ne by lia.
  rewrite Hm. apply lookup_map_seqZ_Some. split; [lia|].
  replace (Z.to_nat (1 + Z.of_nat j - 1)) with j by lia.
  by rewrite lookup_app_l.
Qed.

Lemma old_after (j : nat) (y : Song) :
  l2 !! j = Some y → old !! (k + 1 + Z.of_nat j) = Some y.
Proof.
  destruct Hholds as [Hm _].
  intros Hj. rewrite lookup_delete_ne by lia.
  rewrite Hm. apply lookup_map_seqZ_Some. split; [lia|].
  replace (Z.to_nat (k + 1 + Z.of_nat j - 1))
    with (length l1 + S j)%nat by lia.
  by rewrite lookup_app_r, Nat.add_comm, Nat.add_sub by lia.
Qed.

Lemma old_empty : old = ∅ → length l1 = 0%nat ∧ length l2 = 0%nat.
Proof.
  intros Hempty. split.
  - destruct (l1 !! 0%nat) as [y|] eqn:Hy.
    + apply old_before in Hy. by rewrite Hempty, lookup_empty in Hy.
    + apply lookup_ge_None in Hy. lia.
  - destruct (l2 !! 0%nat) as [y|] eqn:Hy.
    + apply old_after in Hy. by rewrite Hempty, lookup_empty in Hy.
    + apply lookup_ge_None in Hy. lia.
Qed.

Lemma old_present_before (i : Z) :
  1 ≤ i < 1 + Z.of_nat (length l1) → is_Some (old !! i).
Proof.
  intros Hi.
  destruct (lookup_lt_is_Some_2 l1 (Z.to_nat (i - 1))) as [y Hy]; [lia|].
  exists y. apply old_before in Hy.
  by replace (1 + Z.of_nat (Z.to_nat (i - 1))) with i in Hy by lia.
Qed.

Lemma old_present_after (i : Z) :
  k + 1 ≤ i < k + 1 + Z.of_nat (length l2) → is_Some (old !! i).
Proof.
  intros Hi.
  destruct (lookup_lt_is_Some_2 l2 (Z.to_nat (i - (k + 1)))) as [y Hy]; [lia|].
  exists y. apply old_after in Hy.
  by replace (k + 1 + Z.of_nat (Z.to_nat (i - (k + 1)))) with i in Hy by lia.
Qed.

(** The entries after the deletion: the others, in their order. *)
Lemma delete_entry_middle_holds : holds (delete_entry k st) (l1 ++ l2).
Proof.
  rewrite delete_entry_unfold.
  destruct (is_empty old) eqn:Hempty.
  - apply is_empty_true in Hempty.
    destruct (old_empty Hempty) as [E1 E2].
    apply nil_length_inv in E1, E2. rewrite Hempty, E1, E2. by split.
  - destruct Hholds as [_ Hn]. rewrite Hn, range_around.
    set (opi := if decide (k < played_idx st)
                then played_idx st - 1 else played_idx st).
    destruct (loop_song_list old opi
                (seqZ 1 (Z.of_nat (length l1)) ++ [k]
                   ++ seqZ (k + 1) (Z.of_nat (length l2)))%list
                rebuild_start [])
      as [Hlist _]; [done|done|].
    rewrite app_nil_l, !met_app in Hlist.
    rewrite (met_stretch old l1 1 old_before) in Hlist.
    rewrite (met_stretch old l2 (k + 1) old_after) in Hlist.
    rewrite met_cons, old_at in Hlist.
    change (met old []) with (@nil Song) in Hlist.
    rewrite app_nil_l in Hlist.
    split; cbn [song_list current_idx]; rewrite Hlist; [done|].
    unfold len. by rewrite size_map_seqZ.
Qed.

(** The played index after the deletion. *)
Lemma delete_entry_middle_played :
  0 ≤ played_idx st ≤ Z.of_nat (length (l1 ++ x :: l2)) →
  played_idx st ≠ k →
  played_idx (delete_entry k st) = played_after_delete k (played_idx st).
Proof.
  intros Hp Hk. rewrite length_app in Hp. cbn [length] in Hp.
  rewrite delete_entry_unfold.
  destruct (is_empty old) eqn:Hempty.
  - apply is_empty_true in Hempty.
    destruct (old_empty Hempty) as [E1 E2].
    cbn [played_idx]. unfold played_after_delete. repeat case_decide; lia.
  - destruct Hholds as [_ Hn]. rewrite Hn, range_around.
    set (opi := if decide (k < played_idx st)
                then played_idx st - 1 else played_idx st).
    rewrite !foldl_app.
    destruct (loop_played_stretch old opi (length l1) 1 rebuild_start)
      as [HidA HpA]; [apply old_present_before|simpl; lia|].
    set (rA := foldl (rebuild_step old opi) rebuild_start
                 (seqZ 1 (Z.of_nat (length l1)))) in *.
    rewrite (loop_skip old opi k rA old_at).
    destruct (loop_played_stretch old opi (length l2) (k + 1) rA)
      as [HidB HpB]; [apply old_present_after|rewrite HidA; simpl; lia|].
    cbn [played_idx]. rewrite HpB, HpA, HidA.
    unfold played_after_delete, opi. simpl.
    repeat case_decide; lia.
Qed.
End DeleteMiddle.

Lemma delete_entry_frame (k : Z) (st : State) :
  active_streams (delete_entry k st) = active_streams st
  ∧ youtube_client (delete_entry k st) = youtube_client st.
Proof.
  rewrite delete_entry_unfold. by destruct (is_empty _).
Qed.

(** Any entry of a dense queue is in the middle of the list. *)
Lemma holds_middle st l (k : Z) :
  holds st l → 1 ≤ k ≤ Z.of_nat (length l) →
  ∃ l1 x l2, l = (l1 ++ x :: l2)%list ∧ k = 1 + Z.of_nat (length l1)
             ∧ delete (Z.to_nat (k - 1)) l = (l1 ++ l2)%list
             ∧ song_list st !! k = Some x.
Proof.
  intros [Hm _] Hk.
  destruct (lookup_lt_is_Some_2 l (Z.to_nat (k - 1))) as [x Hx]; [lia|].
  pose proof (take_drop_middle l _ x Hx) as Hl.
  assert (length (take (Z.to_nat (k - 1)) l) = Z.to_nat (k - 1)) as Hlen.
  { rewrite length_take. lia. }
  exists (take (Z.to_nat (k - 1)) l), x, (drop (S (Z.to_nat (k - 1))) l).
  split; [done|]. split; [lia|]. split.
  - rewrite <- Hl at 1. rewrite <- Hlen at 1. apply delete_middle.
  - rewrite Hm. apply lookup_map_seqZ_Some. split; [lia|done].
Qed.

Lemma delete_entry_holds st l (k : Z) :
  holds st l → 1 ≤ k ≤ Z.of_nat (length l) →
  holds (delete_entry k st) (delete (Z.to_nat (k - 1)) l).
Proof.
  intros Hl Hk.
  destruct (holds_middle st l k Hl Hk) as (l1 & x & l2 & -> & -> & -> & _).
  by eapply delete_entry_middle_holds.
Qed.

Lemma delete_entry_played st l (k : Z) :
  holds st l → 1 ≤ k ≤ Z.of_nat (length l) →
  0 ≤ played_idx st ≤ Z.of_nat (length l) → played_idx st ≠ k →
  played_idx (delete_entry k st) = played_after_delete k (played_idx st).
Proof.
  intros Hl Hk Hp Hne.
  destruct (holds_middle st l k Hl Hk) as (l1 & x & l2 & -> & -> & _ & _).
  by eapply delete_entry_middle_played.
Qed.

(** ** The outcomes of [delete_song] *)

Lemma delete_song_cases channel k st :
  (deleted (delete_song channel k st).2
   ∧ (delete_song channel k st).1 = delete_entry k st
   ∧ song_list st ≠ ∅ ∧ 1 ≤ k ≤ current_idx st
   ∧ is_Some (song_list st !! k) ∧ k ≠ played_idx st)
  ∨ (¬ deleted (delete_song channel k st).2
     ∧ (delete_song channel k st).1 = st).
Proof.
  unfold delete_song.
  destruct (is_empty (song_list st)) eqn:Hempty.
  { right. split; [by intros [? ?]|done]. }
  apply is_empty_false in Hempty.
  destruct (bool_decide (k < 1) || bool_decide (k > current_idx st)) eqn:Hrange.
  { right. split; [by intros [? ?]|done]. }
  apply orb_false_iff in Hrange as [H1 H2].
  apply bool_decide_eq_false in H1, H2.
  destruct (song_list st !! k) as [deleted_song|] eqn:Hk.
  2:{ right. split; [by intros [? ?]|done]. }
  case_bool_decide.
  { right. split; [by intros [? ?]|done]. }
  left. simpl. repeat split; eauto; try lia. by eexists.
Qed.

Lemma played_after_delete_bounds (k p n : Z) :
  1 ≤ k ≤ n → 0 ≤ p ≤ n → p ≠ k → 0 ≤ played_after_delete k p ≤ n - 1.
Proof. unfold played_after_delete. intros. repeat case_decide; lia. Qed.

(** ** Every step keeps the invariant *)

Lemma Inv_queue st st' : queue st' = queue st → Inv st → Inv st'.
Proof.
  unfold queue, Inv, dense. intros [= Hm Hn Hp]. by rewrite Hm, Hn, Hp.
Qed.

Lemma next_played channel st :
  Inv st →
  song_list (next channel st).1 = song_list st
  ∧ current_idx (next channel st).1 = current_idx st
  ∧ active_streams (next channel st).1 = active_streams st
  ∧ played_idx st ≤ played_idx (next channel st).1 ≤ current_idx st.
Proof.
  intros [_ Hb]. unfold next.
  destruct (is_empty (song_list st)); [repeat split; simpl; try done; lia|].
  destruct (bool_decide (played_idx st = 0) && bool_decide (current_idx st >= 1))
    eqn:Hfirst.
  { apply andb_true_iff in Hfirst as [H1 H2].
    apply bool_decide_eq_true in H1, H2. repeat split; simpl; try done; lia. }
  destruct (bool_decide (played_idx st < current_idx st)) eqn:Hmore;
    [apply bool_decide_eq_true in Hmore|];
    repeat split; simpl; try done; lia.
Qed.

Lemma next_Inv channel st : Inv st → Inv (next channel st).1.
Proof.
  intros HI. destruct (next_played channel st HI) as (Hm & Hn & _ & Hp).
  destruct HI as [Hd Hb]. split.
  - intros i. rewrite Hm, Hn. apply Hd.
  - rewrite Hn. lia.
Qed.

Lemma delete_song_Inv channel k st :
  Inv st → Inv (delete_song channel k st).1.
Proof.
  intros HI.
  destruct (delete_song_cases channel k st)
    as [(_ & -> & _ & Hk & _ & Hne)|[_ ->]]; [|done].
  destruct (Inv_holds st HI) as [l Hl]. destruct HI as [_ Hb].
  pose proof Hl as [_ Hn]. rewrite Hn in Hk, Hb.
  pose proof (delete_entry_holds st l k Hl Hk) as Hl'.
  split; [by eapply holds_dense|].
  rewrite (delete_entry_played st l k) by (done || lia).
  destruct Hl' as [_ ->].
  rewrite length_delete by (apply lookup_lt_is_Some_2; lia).
  pose proof (played_after_delete_bounds k (played_idx st)
                (Z.of_nat (length l))). lia.
Qed.

Lemma start_live_chat_queue channel url st :
  queue (start_live_chat channel url st).1.1 = queue st.
Proof.
  unfold start_live_chat. destruct (youtube_client st); [|done].
  simpl. destruct (extract_youtube_id url); [|done].
  by case_bool_decide.
Qed.

Lemma stop_live_chat_queue channel st :
  queue (stop_live_chat channel st).1 = queue st.
Proof. unfold stop_live_chat. by case_bool_decide. Qed.

Lemma poller_cleanup_queue channel st :
  queue (poller_cleanup channel st) = queue st.
Proof. unfold poller_cleanup. by case_bool_decide. Qed.

Lemma on_ready_queue k st : queue (on_ready k st) = queue st.
Proof. by destruct k. Qed.

Lemma step_Inv st op : Inv st → Inv (step st op).
Proof.
  intros HI. destruct op; simpl; try done.
  - eapply Inv_queue; [apply on_ready_queue|done].
  - eapply Inv_queue; [apply start_live_chat_queue|done].
  - eapply Inv_queue; [apply stop_live_chat_queue|done].
  - by apply next_Inv.
  - destruct (add_cases channel song st) as [->|[e ->]];
      [done|by apply append_Inv].
  - by apply delete_song_Inv.
  - destruct (process_item_cases item processed_messages st) as [->|[e ->]];
      [done|by apply append_Inv].
  - eapply Inv_queue; [apply poller_cleanup_queue|done].
Qed.

Lemma steps_Inv ops st : Inv st → Inv (foldl step st ops).
Proof.
  revert st. induction ops as [|op ops IH]; intros st HI; [done|].
  simpl. by apply IH, step_Inv.
Qed.

Lemma run_Inv ops : Inv (run ops).
Proof. apply steps_Inv, Inv_init. Qed.

Lemma run_snoc ops op : run (ops ++ [op]) = step (run ops) op.
Proof. unfold run. by rewrite foldl_app. Qed.

(** ** Advancing *)

Lemma set_played_idx_id st : set_played_idx (played_idx st) st = st.
Proof. by destruct st. Qed.

Lemma dense_nonempty st : dense st → 1 ≤ current_idx st → song_list st ≠ ∅.
Proof.
  intros Hd Hn Hempty. destruct (proj2 (Hd 1) ltac:(lia)) as [x Hx].
  by rewrite Hempty, lookup_empty in Hx.
Qed.

(** [next] below the last song: one further, and the song there is
    announced. *)
Lemma next_below channel st :
  dense st → 0 ≤ played_idx st < current_idx st →
  ∃ cur rest,
    song_list st !! (played_idx st + 1) = Some cur
    ∧ next channel st =
        (set_played_idx (played_idx st + 1) st,
         next_card (("Now Playing", fmt cur) :: rest)).
Proof.
  intros Hd Hp.
  destruct (proj2 (Hd (played_idx st + 1)) ltac:(lia)) as [cur Hcur].
  exists cur. unfold next.
  rewrite (proj2 (is_empty_false _)) by (apply dense_nonempty; [done|lia]).
  destruct (decide (played_idx st = 0)) as [H0|H0].
  - rewrite !bool_decide_eq_true_2 by lia. cbn [andb].
    cbn [song_list played_idx current_idx set_played_idx].
    replace (played_idx st + 1) with 1 in * by lia. rewrite Hcur.
    case_bool_decide as Hmore.
    + destruct (proj2 (Hd (1 + 1)) ltac:(lia)) as [s Hs]. rewrite Hs. eexists; split; [done|reflexivity].
    + eexists; split; [done|reflexivity].
  - rewrite (bool_decide_eq_false_2 (played_idx st = 0)) by done. cbn [andb].
    rewrite bool_decide_eq_true_2 by lia.
    cbn [song_list played_idx current_idx set_played_idx].
    rewrite Hcur. case_bool_decide as Hmore.
    + destruct (proj2 (Hd (played_idx st + 1 + 1)) ltac:(lia)) as [s Hs].
      rewrite Hs. eexists; split; [done|reflexivity].
    + eexists; split; [done|reflexivity].
Qed.

(** [next] at the last song: nothing moves. *)
Lemma next_at_end channel st :
  dense st → 1 ≤ played_idx st → played_idx st = current_idx st →
  next channel st = (st, at_end).
Proof.
  intros Hd Hp Hn. unfold next.
  rewrite (proj2 (is_empty_false _)) by (apply dense_nonempty; [done|lia]).
  rewrite (bool_decide_eq_false_2 (played_idx st = 0)) by lia. cbn [andb].
  by rewrite bool_decide_eq_false_2 by lia.
Qed.

Lemma advance_S channel n st :
  advance channel (S n) st = (next channel (advance channel n st)).1.
Proof. reflexivity. Qed.

Lemma advance_played channel (j : nat) st :
  dense st → played_idx st = 0 → Z.of_nat j ≤ current_idx st →
  advance channel j st = set_played_idx (Z.of_nat j) st.
Proof.
  intros Hd H0. induction j as [|j IH]; intros Hj.
  - change (st = set_played_idx 0 st). by rewrite <- H0, set_played_idx_id.
  - rewrite advance_S, IH by lia.
    destruct (next_below channel (set_played_idx (Z.of_nat j) st))
      as (cur & rest & _ & ->); [done|simpl; lia|].
    simpl. unfold set_played_idx. simpl. do 2 f_equal. lia.
Qed.

(** * The properties of the specification *)

Lemma scenario_holds : holds (run scenario) [song_a; song_b].
Proof. split; vm_compute; reflexivity. Qed.

Lemma scenario_played : played_idx (run scenario) = 2.
Proof. reflexivity. Qed.

(** ** Scopes *)

(** C1, as stated, fails: the queue is one for the whole process. An
    [add] in channel 1 changes what [current_song] answers in channel 2. *)
Lemma add_seen_in_other_scope :
  (1 : Z) ≠ 2
  ∧ current_song 2 (add 1 "Miniatur-Ryoda" one_session).1
      ≠ current_song 2 one_session
  ∧ queue (add 1 "Miniatur-Ryoda" one_session).1 ≠ queue one_session.
Proof.
  split; [done|]. split; vm_compute; intros H; discriminate H.
Qed.

(** C1, amended: there is a single queue shared by all scopes. [list_song]
    and [current_song] answer the same in every channel; an append made
    for one channel, by [add] or by the poller, is the same append on
    that one queue whatever the channel, so every channel sees the new
    entry under the next number; the only state kept per channel is the
    session registry, which an append leaves as it is. *)
Theorem queue_shared_by_all_scopes (c c' : Z) (st : State) :
  list_song c st = list_song c' st
  ∧ current_song c st = current_song c' st
  ∧ (∀ song, (add c song st).1 = st
             ∨ ∃ e, (add c song st).1 = append e st)
  ∧ (∀ item seen, (process_item item seen st).1.2 = st
                  ∨ ∃ e, (process_item item seen st).1.2 = append e st)
  ∧ (∀ e, current_idx (append e st) = current_idx st + 1
          ∧ song_list (append e st) !! (current_idx st + 1) = Some e
          ∧ played_idx (append e st) = played_idx st
          ∧ active_streams (append e st) !! c' = active_streams st !! c').
Proof.
  split; [done|]. split; [done|].
  split; [intros song; apply add_cases|].
  split; [intros item seen; apply process_item_cases|].
  intros e. rewrite append_song_list, lookup_insert_eq. done.
Qed.

(** ** Deleting *)

(** C2, at the scenario of the specification: the queue holds Song A and
    Song B, Song B is playing; [delete 1] goes through, and the played
    index ends at 0, not at 1. *)
Theorem delete_before_played_scenario :
  played_idx (run scenario) = 2
  ∧ deleted (delete_song 7 1 (run scenario)).2
  ∧ holds (delete_song 7 1 (run scenario)).1 [song_b]
  ∧ played_idx (delete_song 7 1 (run scenario)).1 = 0.
Proof.
  split; [done|]. split; [by eexists|].
  split; [split; vm_compute; reflexivity|done].
Qed.

(** What [delete_song] leaves in [played_idx], in general: after an entry
    below the played one is deleted, the result is never the played index
    less one. *)
Lemma delete_song_played channel k st :
  Inv st → deleted (delete_song channel k st).2 →
  played_idx (delete_song channel k st).1
    = played_after_delete k (played_idx st).
Proof.
  intros HI Hdel.
  destruct (delete_song_cases channel k st)
    as [(_ & -> & _ & Hk & _ & Hne)|[Hno _]]; [|done].
  destruct (Inv_holds st HI) as [l Hl]. destruct HI as [_ Hb].
  pose proof Hl as [_ Hn]. rewrite Hn in Hk, Hb.
  by apply (delete_entry_played st l).
Qed.

Lemma delete_song_below_played channel k st :
  Inv st → deleted (delete_song channel k st).2 → k < played_idx st →
  played_idx (delete_song channel k st).1 ≠ played_idx st - 1.
Proof.
  intros HI Hdel Hlt. rewrite delete_song_played by done.
  destruct (delete_song_cases channel k st)
    as [(_ & _ & _ & Hk & _)|[Hno _]]; [|done].
  unfold played_after_delete. repeat case_decide; lia.
Qed.

Lemma delete_song_above_played channel k st :
  Inv st → deleted (delete_song channel k st).2 → played_idx st < k →
  played_idx (delete_song channel k st).1 = played_idx st.
Proof.
  intros HI Hdel Hlt. rewrite delete_song_played by done.
  unfold played_after_delete. repeat case_decide; lia.
Qed.

(** C3: a deletion that goes through, from a queue that holds the
    entries [l] under [1..N], leaves a queue that holds [l] without its
    entry [k], in the same order, under [1..N-1]. *)
Theorem delete_song_renumbers channel k st (l : list Song) :
  holds st l → deleted (delete_song channel k st).2 →
  let st' := (delete_song channel k st).1 in
  let l' := delete (Z.to_nat (k - 1)) l in
  song_list st' = map_seqZ 1 l'
  ∧ Z.of_nat (length l') = Z.of_nat (length l) - 1
  ∧ current_idx st' = Z.of_nat (length l) - 1
  ∧ (∀ i, is_Some (song_list st' !! i) ↔ 1 ≤ i ≤ Z.of_nat (length l) - 1).
Proof.
  intros Hl Hdel st' l'.
  destruct (delete_song_cases channel k st)
    as [(_ & Hst' & _ & Hk & _)|[Hno _]]; [|done].
  pose proof Hl as [_ Hn]. rewrite Hn in Hk.
  assert (holds st' l') as Hl'.
  { unfold st'. rewrite Hst'. by apply delete_entry_holds. }
  assert (Z.of_nat (length l') = Z.of_nat (length l) - 1) as Hlen.
  { unfold l'. rewrite length_delete by (apply lookup_lt_is_Some_2; lia). lia. }
  split; [apply Hl'|]. split; [done|]. split; [destruct Hl' as [_ ->]; lia|].
  intros i. rewrite (holds_dense _ _ Hl' i). destruct Hl' as [_ ->]. lia.
Qed.

Lemma delete_song_renumbers_witness :
  let st' := (delete_song 7 1 (run scenario)).1 in
  let l' := delete (Z.to_nat (1 - 1)) [song_a; song_b] in
  song_list st' = map_seqZ 1 l'
  ∧ Z.of_nat (length l') = Z.of_nat (length [song_a; song_b]) - 1
  ∧ current_idx st' = Z.of_nat (length [song_a; song_b]) - 1
  ∧ (∀ i, is_Some (song_list st' !! i)
          ↔ 1 ≤ i ≤ Z.of_nat (length [song_a; song_b]) - 1).
Proof.
  apply (delete_song_renumbers 7 1 (run scenario) [song_a; song_b]).
  - split; vm_compute; reflexivity.
  - eexists. vm_compute. reflexivity.
Defined.

(** C4: in a queue that keeps its invariants and has a played entry,
    deleting the played entry is refused with the message that the
    playing song cannot be deleted, and the state is the same. *)
Theorem delete_played_refused channel st :
  Inv st → 1 ≤ played_idx st →
  song_list st ≠ ∅
  ∧ delete_song channel (played_idx st) st = (st, Text msg_protected).
Proof.
  intros [Hd Hb] Hp.
  assert (song_list st ≠ ∅) as Hne by (apply dense_nonempty; [done|lia]).
  split; [done|]. unfold delete_song.
  rewrite (proj2 (is_empty_false _)) by done.
  rewrite !bool_decide_eq_false_2 by lia. cbn [orb].
  destruct (proj2 (Hd (played_idx st)) ltac:(lia)) as [x ->].
  by rewrite bool_decide_eq_true_2.
Qed.

Lemma delete_played_refused_witness :
  song_list (run scenario) ≠ ∅
  ∧ delete_song 7 (played_idx (run scenario)) (run scenario)
      = (run scenario, Text msg_protected).
Proof.
  apply (delete_played_refused 7 (run scenario)).
  - split; [apply (holds_dense _ [song_a; song_b]); split; vm_compute;
            reflexivity|].
    vm_compute. split; discriminate.
  - vm_compute. discriminate.
Defined.

(** ** Advancing through the queue *)

(** C5: from a queue of [N >= 1] entries with nothing played, each of
    the first [N] calls of [next] moves the played index one further and
    announces the entry it arrives at as now playing; after [N] calls
    the played index is [N], and one more call answers that the last
    song is reached and changes nothing. *)
Theorem advance_to_the_end channel st :
  Inv st → played_idx st = 0 → song_list st ≠ ∅ →
  let N := size (song_list st) in
  (1 ≤ N)%nat
  ∧ (∀ j : nat, (j < N)%nat →
       played_idx (advance channel j st) = Z.of_nat j
       ∧ played_idx (advance channel (S j) st) = Z.of_nat j + 1
       ∧ ∃ cur rest,
           song_list st !! (Z.of_nat j + 1) = Some cur
           ∧ next channel (advance channel j st)
               = (advance channel (S j) st,
                  next_card (("Now Playing", fmt cur) :: rest)))
  ∧ played_idx (advance channel N st) = Z.of_nat N
  ∧ next channel (advance channel N st) = (advance channel N st, at_end).
Proof.
  intros HI H0 Hne N. pose proof (Inv_counted st HI) as Hc.
  destruct HI as [Hd Hb]. unfold counted, len in Hc. fold N in Hc.
  assert (1 ≤ N)%nat as HN.
  { destruct (decide (N = 0%nat)) as [HN|]; [|lia].
    by apply map_size_empty_iff in HN. }
  split; [done|]. split; [|split].
  - intros j Hj. rewrite !advance_played by (done || lia).
    split; [done|]. split; [simpl; lia|].
    destruct (next_below channel (set_played_idx (Z.of_nat j) st))
      as (cur & rest & Hcur & Hnext); [done|simpl; lia|].
    exists cur, rest. split; [done|]. rewrite Hnext. f_equal.
    unfold set_played_idx. simpl. do 2 f_equal. lia.
  - rewrite advance_played by (done || lia). done.
  - rewrite advance_played by (done || lia).
    apply next_at_end; [done|simpl; lia|simpl; lia].
Qed.

Lemma advance_to_the_end_witness :
  let st := run [OpReady true; OpStart 7 "https://youtu.be/abcdefghijk";
                 OpAdd 7 "Miniatur-Ryoda"; OpAdd 7 "Hoshi-Lily"] in
  let N := size (song_list st) in
  (1 ≤ N)%nat
  ∧ (∀ j : nat, (j < N)%nat →
       played_idx (advance 7 j st) = Z.of_nat j
       ∧ played_idx (advance 7 (S j) st) = Z.of_nat j + 1
       ∧ ∃ cur rest,
           song_list st !! (Z.of_nat j + 1) = Some cur
           ∧ next 7 (advance 7 j st)
               = (advance 7 (S j) st,
                  next_card (("Now Playing", fmt cur) :: rest)))
  ∧ played_idx (advance 7 N st) = Z.of_nat N
  ∧ next 7 (advance 7 N st) = (advance 7 N st, at_end).
Proof.
  apply (advance_to_the_end 7).
  - apply run_Inv.
  - reflexivity.
  - vm_compute. discriminate.
Defined.

(** ** The invariants over all runs *)

(** C6: [0 <= played_idx <= N], [N] the number of entries, holds in the
    initial state and after every step of every run: appends (by the
    poller and by [add]), [next], [delete] whether it goes through or is
    refused, [list_song], [current_song] and the session commands. *)
Theorem played_idx_bounded (ops : list Op) :
  bounded init
  ∧ bounded (run ops)
  ∧ ∀ op, bounded (step (run ops) op).
Proof.
  split; [apply Inv_bounded, Inv_init|].
  split; [apply Inv_bounded, run_Inv|].
  intros op. apply Inv_bounded, step_Inv, run_Inv.
Qed.

(** C10: the counter is the number of entries in the initial state and
    after every step of every run, so that the range check of [delete]
    against the counter is the check against the size of the queue. *)
Theorem counter_is_size (ops : list Op) :
  counted init
  ∧ counted (run ops)
  ∧ (∀ op, counted (step (run ops) op))
  ∧ ∀ k, bool_decide (k < 1) || bool_decide (k > current_idx (run ops))
         = bool_decide (k < 1) || bool_decide (k > len (song_list (run ops))).
Proof.
  pose proof (Inv_counted _ (run_Inv ops)) as Hc.
  split; [apply Inv_counted, Inv_init|]. split; [done|].
  split; [intros op; apply Inv_counted, step_Inv, run_Inv|].
  intros k. by rewrite Hc.
Qed.

(** ** Appending *)

Lemma next_frame channel st :
  song_list (next channel st).1 = song_list st
  ∧ current_idx (next channel st).1 = current_idx st.
Proof.
  unfold next. destruct (is_empty (song_list st)); [done|].
  destruct (_ && _); [done|]. by case_bool_decide.
Qed.

Lemma add_request channel song st :
  (add channel song st).1
  = match request_of st (OpAdd channel song) with
    | Some e => append e st
    | None => st
    end.
Proof.
  unfold add, request_of. case_bool_decide; [|done].
  destruct (split "-" song) as [|part0 [|nama_request parts]]; done.
Qed.

Lemma process_item_request item seen st :
  (process_item item seen st).1.2
  = match request_of st (OpItem item seen) with
    | Some e => append e st
    | None => st
    end.
Proof.
  unfold process_item, request_of. case_bool_decide; [done|].
  by destruct (is_request _).
Qed.

(** A step that is not a [delete] appends its request, if it has one,
    and leaves the entries and the counter alone otherwise. *)
Lemma step_holds st l op :
  is_delete op = false → holds st l →
  holds (step st op) (l ++ option_list (request_of st op)).
Proof.
  intros Hop Hl.
  assert (∀ s, queue s = queue st → holds s (l ++ [])) as Hsame.
  { intros s [= Hm Hn _]. rewrite app_nil_r. unfold holds.
    rewrite Hm, Hn. apply Hl. }
  destruct op; simpl in Hop; try done; cbn [step].
  - apply Hsame, on_ready_queue.
  - apply Hsame, start_live_chat_queue.
  - apply Hsame, stop_live_chat_queue.
  - by apply Hsame.
  - by apply Hsame.
  - destruct (next_frame channel st) as [Hm Hn].
    change (request_of st (OpNext channel)) with (@None Song).
    cbn [option_list]. rewrite app_nil_r.
    unfold holds. rewrite Hm, Hn. apply Hl.
  - rewrite add_request.
    destruct (request_of st (OpAdd channel song)) as [e|];
      [by apply append_holds|by apply Hsame].
  - by apply Hsame.
  - rewrite process_item_request.
    destruct (request_of st (OpItem item processed_messages)) as [e|];
      [by apply append_holds|by apply Hsame].
  - apply Hsame, poller_cleanup_queue.
Qed.

Lemma steps_requests ops st l :
  Forall (λ op, is_delete op = false) ops → holds st l →
  holds (foldl step st ops) (l ++ requests st ops)
  ∧ numbers st ops
    = seqZ (Z.of_nat (length l) + 1) (Z.of_nat (length (requests st ops))).
Proof.
  revert st l. induction ops as [|op ops IH]; intros st l Hops Hl.
  - simpl. by rewrite app_nil_r.
  - apply Forall_cons in Hops as [Hop Hops].
    pose proof (step_holds st l op Hop Hl) as Hl1.
    destruct (IH _ _ Hops Hl1) as [Hfinal Hnumbers].
    cbn [foldl requests numbers]. rewrite app_assoc. split; [done|].
    rewrite Hnumbers.
    destruct (request_of st op) as [e|].
    + change (option_list (Some e)) with [e] in *.
      destruct Hl1 as [_ ->]. rewrite length_app. cbn [length app].
      rewrite (seqZ_cons (Z.of_nat (length l) + 1)) by lia.
      f_equal; [lia|]. f_equal; lia.
    + change (option_list (@None Song)) with (@nil Song) in *.
      by rewrite app_nil_r.
Qed.

(** C7: along every sequence of steps without a [delete], from an empty
    queue, the requests handed over by the poller and by [add] are
    numbered 1, 2, 3, ... in the order they arrive, without a gap and
    without a number used twice; the queue then holds them under these
    numbers; each of the two paths stores its request by an append, which
    puts the entry under the counter plus one and moves the counter
    there, leaving the other entries alone. *)
Theorem appends_numbered (st : State) (ops : list Op) :
  song_list st = ∅ → current_idx st = 0 →
  Forall (λ op, is_delete op = false) ops →
  numbers st ops = seqZ 1 (Z.of_nat (length (requests st ops)))
  ∧ song_list (foldl step st ops) = map_seqZ 1 (requests st ops)
  ∧ current_idx (foldl step st ops) = Z.of_nat (length (requests st ops))
  ∧ (∀ s channel song e,
       request_of s (OpAdd channel song) = Some e →
       (add channel song s).1 = append e s)
  ∧ (∀ s item seen e,
       request_of s (OpItem item seen) = Some e →
       (process_item item seen s).1.2 = append e s)
  ∧ (∀ s e, current_idx (append e s) = current_idx s + 1
            ∧ song_list (append e s) !! (current_idx s + 1) = Some e
            ∧ ∀ i, i ≠ current_idx s + 1 →
                   song_list (append e s) !! i = song_list s !! i).
Proof.
  intros Hm Hn Hops.
  destruct (steps_requests ops st [] Hops) as [[Hm' Hn'] Hnumbers];
    [by split|].
  split; [done|]. split; [done|]. split; [done|].
  split; [intros s channel song e He; by rewrite add_request, He|].
  split; [intros s item seen e He; by rewrite process_item_request, He|].
  intros s e. rewrite append_song_list, lookup_insert_eq.
  split; [done|]. split; [done|]. intros i Hi. by rewrite lookup_insert_ne.
Qed.

Lemma appends_numbered_witness :
  numbers init mixed_requests
    = seqZ 1 (Z.of_nat (length (requests init mixed_requests)))
  ∧ song_list (foldl step init mixed_requests)
      = map_seqZ 1 (requests init mixed_requests)
  ∧ current_idx (foldl step init mixed_requests)
      = Z.of_nat (length (requests init mixed_requests))
  ∧ (∀ s channel song e,
       request_of s (OpAdd channel song) = Some e →
       (add channel song s).1 = append e s)
  ∧ (∀ s item seen e,
       request_of s (OpItem item seen) = Some e →
       (process_item item seen s).1.2 = append e s)
  ∧ (∀ s e, current_idx (append e s) = current_idx s + 1
            ∧ song_list (append e s) !! (current_idx s + 1) = Some e
            ∧ ∀ i, i ≠ current_idx s + 1 →
                   song_list (append e s) !! i = song_list s !! i).
Proof.
  apply (appends_numbered init mixed_requests).
  - reflexivity.
  - reflexivity.
  - unfold mixed_requests. repeat (constructor; [reflexivity|]). constructor.
Defined.

Example mixed_requests_stored :
  requests init mixed_requests
    = [ ("Song A", "Alice"); ("(Trakteer) - Miniatur", "Ryoda");
        ("Song B", "Bob") ]
  ∧ numbers init mixed_requests = [1; 2; 3]
  ∧ song_list (run mixed_requests) !! 2 = Some ("(Trakteer) - Miniatur", "Ryoda").
Proof. repeat split; reflexivity. Qed.

(** ** The filter of the poller *)

(** C8, as stated, fails: the stored title is not what follows the
    four-character marker. *)
Lemma title_not_text_after_marker :
  is_request (displayMessage item_song_a) = true
  ∧ song_list (process_item item_song_a ∅ init).1.2 !! 1
      = Some ("Song A", "Alice")
  ∧ song_list (process_item item_song_a ∅ init).1.2 !! 1
      ≠ Some (str_drop (String.length "!req") (displayMessage item_song_a),
              displayName item_song_a).
Proof.
  split; [reflexivity|]. split; [reflexivity|].
  vm_compute. intros H. discriminate H.
Qed.

(** C8, amended: an item the poller has not handled before is forwarded
    exactly when its text, in lower case, starts with [!req]; the entry
    stored for it has the text without its first five characters (the
    marker and the character after it) as title and the author's name as
    requester. *)
Theorem request_forwarded (item : ChatItem) (seen : gset string) (st : State) :
  item_id item ∉ seen →
  (forwarded item seen st ↔ startswith "!req" (lower (displayMessage item)) = true)
  ∧ (forwarded item seen st →
       (process_item item seen st).1.2
         = append (str_drop 5 (displayMessage item), displayName item) st
       ∧ song_list (process_item item seen st).1.2 !! (current_idx st + 1)
           = Some (str_drop 5 (displayMessage item), displayName item)).
Proof.
  intros Hnew. pose proof (process_item_new item seen st Hnew) as Hst.
  unfold forwarded. fold (is_request (displayMessage item)).
  destruct (is_request (displayMessage item)).
  - split; [split; [done|by eexists]|]. intros _. split; [done|].
    by rewrite Hst, append_song_list, lookup_insert_eq.
  - assert (¬ ∃ entry, (process_item item seen st).1.2 = append entry st).
    { intros [e He]. rewrite Hst in He.
      apply (f_equal current_idx) in He. rewrite append_current_idx in He. lia. }
    split; [split; [done|discriminate]|done].
Qed.

Lemma request_forwarded_witness :
  (forwarded item_song_a ∅ init
   ↔ startswith "!req" (lower (displayMessage item_song_a)) = true)
  ∧ (forwarded item_song_a ∅ init →
       (process_item item_song_a ∅ init).1.2
         = append (str_drop 5 (displayMessage item_song_a),
                   displayName item_song_a) init
       ∧ song_list (process_item item_song_a ∅ init).1.2 !! (current_idx init + 1)
           = Some (str_drop 5 (displayMessage item_song_a),
                   displayName item_song_a)).
Proof.
  apply (request_forwarded item_song_a ∅ init). vm_compute. intros H.
  inversion H.
Defined.

(** ** Starting a session *)

(** C9: [start_live_chat], whatever the URL and whatever its outcome,
    leaves the entries, the counter and the played index as they were. *)
Theorem start_keeps_queue (channel : Z) (url : string) (st : State) :
  song_list (start_live_chat channel url st).1.1 = song_list st
  ∧ current_idx (start_live_chat channel url st).1.1 = current_idx st
  ∧ played_idx (start_live_chat channel url st).1.1 = played_idx st.
Proof.
  pose proof (start_live_chat_queue channel url st) as Hq.
  unfold queue in Hq. by injection Hq as -> -> ->.
Qed.

(** * Further properties of the code *)

(** ** Strings *)

Lemma string_app_cons (x : ascii) (a b : string) :
  String x a +:+ b = String x (a +:+ b).
Proof. reflexivity. Qed.

Lemma string_app_nil_l (b : string) : "" +:+ b = b.
Proof. reflexivity. Qed.

Lemma string_app_assoc (a b c : string) : (a +:+ b) +:+ c = a +:+ b +:+ c.
Proof.
  induction a as [|x a IH]; [done|]. rewrite !string_app_cons. by f_equal.
Qed.

Lemma string_app_nil_r (a : string) : a +:+ "" = a.
Proof.
  induction a as [|x a IH]; [done|]. rewrite string_app_cons. by f_equal.
Qed.

Lemma string_length_app (a b : string) :
  String.length (a +:+ b) = (String.length a + String.length b)%nat.
Proof.
  induction a as [|x a IH]; [done|]. rewrite string_app_cons. simpl.
  by f_equal.
Qed.

Lemma all_chars_app P (a b : string) :
  all_chars P (a +:+ b) = all_chars P a && all_chars P b.
Proof.
  induction a as [|x a IH]; [done|]. rewrite string_app_cons. simpl.
  by rewrite IH, andb_assoc.
Qed.

Lemma strip_prefix_Some (p s r : string) :
  strip_prefix p s = Some r ↔ s = p +:+ r.
Proof.
  revert s. induction p as [|a p IH]; intros s.
  - rewrite string_app_nil_l. simpl. split; congruence.
  - rewrite string_app_cons. simpl.
    destruct s as [|b s]; [split; discriminate|].
    destruct (Ascii.eqb_spec a b) as [->|Hne].
    + rewrite IH. split; congruence.
    + split; [discriminate|]. intros [= ? ?]. done.
Qed.

Lemma strip_prefix_app (a b s : string) :
  strip_prefix (a +:+ b) s = strip_prefix a s ≫= strip_prefix b.
Proof.
  revert s. induction a as [|x a IH]; intros s; [done|].
  rewrite string_app_cons. simpl.
  destruct s as [|y s]; [done|]. by destruct (Ascii.eqb x y).
Qed.

Lemma take_id_Some (n : nat) (s id : string) :
  take_id n s = Some id →
  String.length id = n ∧ all_chars is_id_char id = true
  ∧ ∃ post, s = id +:+ post.
Proof.
  revert s id. induction n as [|n IH]; intros s id; simpl.
  - intros [= <-]. eauto.
  - destruct s as [|c s]; [done|].
    destruct (is_id_char c) eqn:Hc; [|done].
    destruct (take_id n s) as [id'|] eqn:Hid; [|done].
    intros [= <-]. destruct (IH s id' Hid) as (Hlen & Hall & post & ->).
    simpl. rewrite Hlen, Hc, Hall. eauto.
Qed.

Lemma take_id_complete (id post : string) :
  all_chars is_id_char id = true →
  take_id (String.length id) (id +:+ post) = Some id.
Proof.
  induction id as [|c id IH]; [done|]. rewrite string_app_cons. simpl.
  intros [Hc Hall]%andb_true_iff. by rewrite Hc, IH.
Qed.

Lemma first_some_Some {A B} (f : A → option B) (l : list A) (b : B) :
  first_some f l = Some b → ∃ a, a ∈ l ∧ f a = Some b.
Proof.
  induction l as [|a l IH]; simpl; [done|].
  destruct (f a) as [b'|] eqn:Ha.
  - intros [= <-]. exists a. split; [left|done].
  - intros (a' & Hin & Ha')%IH. exists a'. split; [by right|done].
Qed.

Lemma first_some_None {A B} (f : A → option B) (l : list A) :
  first_some f l = None ↔ ∀ a, a ∈ l → f a = None.
Proof.
  induction l as [|a l IH]; simpl.
  - split; [by intros _ a ?%elem_of_nil|done].
  - destruct (f a) as [b|] eqn:Ha.
    + split; [done|]. intros H. specialize (H a ltac:(left)). congruence.
    + rewrite IH. split.
      * intros H a' [->|Hin]%elem_of_cons; eauto.
      * intros H a' Hin. apply H. by right.
Qed.

Lemma first_some_ext {A B} (f g : A → option B) (l : list A) :
  (∀ a, a ∈ l → f a = g a) → first_some f l = first_some g l.
Proof.
  induction l as [|a l IH]; intros H; simpl; [done|].
  rewrite (H a) by left. rewrite IH; [done|]. intros a' Hin. apply H. by right.
Qed.

(** ** [extract_youtube_id] *)

Lemma search_eq (p : Pattern) (s : string) :
  search p s =
    match match_at p s with
    | Some id => Some id
    | None => match s with
              | EmptyString => None
              | String _ s' => search p s'
              end
    end.
Proof. by destruct s. Qed.

Lemma find_after_eq (lit s : string) :
  find_after lit s =
    match strip_prefix lit s ≫= take_id 11 with
    | Some id => Some id
    | None => match s with
              | EmptyString => None
              | String _ s' => find_after lit s'
              end
    end.
Proof. by destruct s. Qed.

Lemma search_Some (p : Pattern) (s id : string) :
  search p s = Some id → ∃ pre t, s = pre +:+ t ∧ match_at p t = Some id.
Proof.
  induction s as [|c s IH]; rewrite search_eq.
  - destruct (match_at p "") eqn:Hm; [|done].
    intros [= ->]. by exists "", "".
  - destruct (match_at p (String c s)) eqn:Hm.
    + intros [= ->]. by exists "", (String c s).
    + intros (pre & t & -> & Ht)%IH. by exists (String c pre), t.
Qed.

Lemma alternatives_literal (p : Pattern) (alt : string) :
  alt ∈ alternatives p → ∃ pre, alt = pre +:+ literal p.
Proof.
  unfold alternatives.
  intros (sch & (w & ->%list_elem_of_singleton & _)%list_elem_of_bind & _)%list_elem_of_bind.
  exists (sch +:+ w). by rewrite string_app_assoc.
Qed.

Lemma match_at_Some (p : Pattern) (t id : string) :
  match_at p t = Some id →
  String.length id = 11%nat ∧ all_chars is_id_char id = true
  ∧ ∃ pre post, t = pre +:+ literal p +:+ id +:+ post.
Proof.
  unfold match_at. intros (alt & Halt & Hid)%first_some_Some.
  destruct (alternatives_literal p alt Halt) as [pre ->].
  destruct (strip_prefix (pre +:+ literal p) t) as [r|] eqn:Hr; [|done].
  apply strip_prefix_Some in Hr as ->. change (take_id 11 r = Some id) in Hid.
  destruct (take_id_Some _ _ _ Hid) as (Hlen & Hall & post & ->).
  split; [done|]. split; [done|]. exists pre, post.
  by rewrite string_app_assoc.
Qed.

(** X1: whatever [extract_youtube_id] returns is made of eleven
    characters of the class [[a-zA-Z0-9_-]] and stands in the URL right
    after one of the four literals. *)
Theorem extract_youtube_id_sound (url id : string) :
  extract_youtube_id url = Some id →
  String.length id = 11%nat
  ∧ all_chars is_id_char id = true
  ∧ ∃ lit pre post, lit ∈ literals ∧ url = pre +:+ lit +:+ id +:+ post.
Proof.
  unfold extract_youtube_id. intros (p & Hp & Hs)%first_some_Some.
  destruct (search_Some p url id Hs) as (pre & t & -> & Hm).
  destruct (match_at_Some p t id Hm) as (Hlen & Hall & pre' & post & ->).
  split; [done|]. split; [done|].
  exists (literal p), (pre +:+ pre'), post. split.
  - unfold literals. apply list_elem_of_fmap. by exists p.
  - by rewrite string_app_assoc.
Qed.

Lemma extract_youtube_id_sound_witness :
  String.length "dQw4w9WgXcQ" = 11%nat
  ∧ all_chars is_id_char "dQw4w9WgXcQ" = true
  ∧ ∃ lit pre post,
      lit ∈ literals
      ∧ "https://www.youtube.com/watch?v=dQw4w9WgXcQ&t=1"
          = pre +:+ lit +:+ "dQw4w9WgXcQ" +:+ post.
Proof.
  apply (extract_youtube_id_sound
           "https://www.youtube.com/watch?v=dQw4w9WgXcQ&t=1" "dQw4w9WgXcQ").
  reflexivity.
Defined.

(** The optional groups of a pattern never decide: a pattern whose
    alternatives are its literal behind prefixes that do not contain the
    first character of the literal finds what the plain search finds. *)
Lemma find_after_skip (c : ascii) (lit pre t : string) :
  all_chars (λ a, negb (Ascii.eqb a c)) pre = true →
  find_after (String c lit) (pre +:+ t) = find_after (String c lit) t.
Proof.
  induction pre as [|a pre IH]; [done|].
  rewrite string_app_cons. simpl all_chars.
  intros [Ha Hall]%andb_true_iff. rewrite find_after_eq.
  cbn [strip_prefix]. rewrite Ascii.eqb_sym.
  apply negb_true_iff in Ha. rewrite Ha. cbn [mbind option_bind]. by apply IH.
Qed.

Lemma search_find_after (p : Pattern) (c : ascii) (lit : string)
    (pres : list string) (s : string) :
  literal p = String c lit →
  alternatives p = (λ pre, pre +:+ literal p) <$> pres →
  Forall (λ pre, all_chars (λ a, negb (Ascii.eqb a c)) pre = true) pres →
  "" ∈ pres →
  search p s = find_after (literal p) s.
Proof.
  intros Hlit Halt Hpres Hnil.
  assert (∀ t id, match_at p t = Some id → find_after (literal p) t = Some id)
    as Hfound.
  { intros t id. unfold match_at. intros (alt & Hin & Hid)%first_some_Some.
    rewrite Halt in Hin. apply list_elem_of_fmap in Hin as (pre & -> & Hpre).
    rewrite strip_prefix_app in Hid.
    destruct (strip_prefix pre t) as [r|] eqn:Hr; [|done].
    apply strip_prefix_Some in Hr as ->.
    change (strip_prefix (literal p) r ≫= take_id 11 = Some id) in Hid.
    rewrite Hlit, find_after_skip
      by (by eapply (proj1 (Forall_forall _ _) Hpres)).
    rewrite <- Hlit, find_after_eq. by rewrite Hid. }
  assert (∀ t, match_at p t = None →
               strip_prefix (literal p) t ≫= take_id 11 = None) as Hmissed.
  { intros t. unfold match_at. rewrite first_some_None. intros H.
    specialize (H ("" +:+ literal p)). rewrite string_app_nil_l in H.
    apply H. rewrite Halt. apply list_elem_of_fmap. by exists "". }
  induction s as [|a s IH]; rewrite search_eq, find_after_eq.
  - destruct (match_at p "") as [id|] eqn:Hm.
    + apply Hfound in Hm. rewrite find_after_eq in Hm.
      by destruct (strip_prefix (literal p) "" ≫= take_id 11).
    + by rewrite (Hmissed _ Hm).
  - destruct (match_at p (String a s)) as [id|] eqn:Hm.
    + apply Hfound in Hm. by rewrite find_after_eq in Hm.
    + by rewrite (Hmissed _ Hm).
Qed.

Lemma search_plain (p : Pattern) (url : string) :
  p ∈ patterns → search p url = find_after (literal p) url.
Proof.
  intros Hp. unfold patterns in Hp.
  repeat (apply elem_of_cons in Hp as [->|Hp]);
    [..|by apply elem_of_nil in Hp].
  - eapply (search_find_after _ _ _
              ["https://www."; "https://"; "http://www."; "http://"; "www."; ""]);
      [reflexivity|reflexivity| |set_solver].
    repeat (constructor; [reflexivity|]). constructor.
  - eapply (search_find_after _ _ _
              ["https://www."; "https://"; "http://www."; "http://"; "www."; ""]);
      [reflexivity|reflexivity| |set_solver].
    repeat (constructor; [reflexivity|]). constructor.
  - eapply (search_find_after _ _ _ ["https://"; "http://"; ""]);
      [reflexivity|reflexivity| |set_solver].
    repeat (constructor; [reflexivity|]). constructor.
  - eapply (search_find_after _ _ _
              ["https://www."; "https://"; "http://www."; "http://"; "www."; ""]);
      [reflexivity|reflexivity| |set_solver].
    repeat (constructor; [reflexivity|]). constructor.
Qed.

(** X2: the optional scheme and [www.] of the patterns never change the
    result: [extract_youtube_id] returns, for the first pattern in the
    list that has one, the eleven characters after the leftmost place
    where the literal of the pattern is followed by eleven characters of
    the class. *)
Theorem extract_youtube_id_plain (url : string) :
  extract_youtube_id url = first_some (λ lit, find_after lit url) literals.
Proof.
  unfold extract_youtube_id, literals, patterns.
  cbn [fmap list_fmap literal first_some].
  rewrite !search_plain by (unfold patterns; set_solver). done.
Qed.

Lemma find_after_complete (lit pre id post : string) :
  String.length id = 11%nat → all_chars is_id_char id = true →
  is_Some (find_after lit (pre +:+ lit +:+ id +:+ post)).
Proof.
  intros Hlen Hall. induction pre as [|a pre IH].
  - rewrite string_app_nil_l, find_after_eq.
    rewrite (proj2 (strip_prefix_Some lit _ (id +:+ post)) eq_refl).
    change (Some (id +:+ post) ≫= take_id 11) with (take_id 11 (id +:+ post)).
    rewrite <- Hlen, take_id_complete by done. by eexists.
  - rewrite string_app_cons, find_after_eq.
    by destruct (strip_prefix lit _ ≫= take_id 11).
Qed.

Lemma first_some_is_Some {A B} (f : A → option B) (l : list A) (a : A) :
  a ∈ l → is_Some (f a) → is_Some (first_some f l).
Proof.
  intros Hin Ha. destruct (first_some f l) eqn:Hnone; [by eexists|].
  rewrite first_some_None in Hnone. rewrite (Hnone a Hin) in Ha.
  by destruct Ha.
Qed.

(** X3: [extract_youtube_id] finds an id exactly when the URL has,
    somewhere, one of the four literals followed by eleven characters of
    the class; otherwise it returns [None]. *)
Theorem extract_youtube_id_finds (url : string) :
  is_Some (extract_youtube_id url)
  ↔ ∃ lit pre id post,
      lit ∈ literals ∧ String.length id = 11%nat
      ∧ all_chars is_id_char id = true
      ∧ url = pre +:+ lit +:+ id +:+ post.
Proof.
  unfold extract_youtube_id. split.
  - intros [id (p & Hp & Hs)%first_some_Some].
    destruct (search_Some p url id Hs) as (pre & t & -> & Hm).
    destruct (match_at_Some p t id Hm) as (Hlen & Hall & pre' & post & ->).
    exists (literal p), (pre +:+ pre'), id, post.
    split; [unfold literals; apply list_elem_of_fmap; by exists p|].
    by rewrite string_app_assoc.
  - intros (lit & pre & id & post & Hlit & Hlen & Hall & ->).
    unfold literals in Hlit. apply list_elem_of_fmap in Hlit as (p & -> & Hp).
    apply (first_some_is_Some _ _ p Hp). rewrite search_plain by done.
    by apply find_after_complete.
Qed.

(** ** Sessions *)

Lemma state_eq (st st' : State) :
  song_list st = song_list st' → current_idx st = current_idx st' →
  played_idx st = played_idx st' → active_streams st = active_streams st' →
  youtube_client st = youtube_client st' → st = st'.
Proof. destruct st, st'; simpl; congruence. Qed.

(** [start_live_chat] either registers the video of the URL for a free
    channel and hands its poller over, or leaves everything as it is. *)
Lemma start_live_chat_cases channel url st :
  (∃ video_id,
     youtube_client st = true ∧ extract_youtube_id url = Some video_id
     ∧ active_streams st !! channel = None
     ∧ (start_live_chat channel url st).1.1
         = set_active_streams (<[channel := video_id]> (active_streams st)) st
     ∧ (start_live_chat channel url st).2 = Some (video_id, channel))
  ∨ ((start_live_chat channel url st).1.1 = st
     ∧ (start_live_chat channel url st).2 = None).
Proof.
  unfold start_live_chat. destruct (youtube_client st); [|by right].
  cbn [negb]. destruct (extract_youtube_id url) as [video_id|]; [|by right].
  case_bool_decide as Hact; [by right|]. left. exists video_id.
  repeat split; try done. by apply eq_None_not_Some.
Qed.

Lemma start_live_chat_taken channel url st :
  is_Some (active_streams st !! channel) →
  (start_live_chat channel url st).1.1 = st
  ∧ (start_live_chat channel url st).2 = None.
Proof.
  intros Hact.
  destruct (start_live_chat_cases channel url st)
    as [(v & _ & _ & Hfree & _)|H]; [|done].
  rewrite Hfree in Hact. by destruct Hact.
Qed.

(** X4: once a start has gone through in a channel, every further start
    in that channel, whatever its URL, is refused: nothing is registered,
    no poller is handed over, and the channel keeps the first video. *)
Theorem second_start_refused channel url url' st :
  is_Some (start_live_chat channel url st).2 →
  let st1 := (start_live_chat channel url st).1.1 in
  (∃ video_id,
     extract_youtube_id url = Some video_id
     ∧ active_streams st1 !! channel = Some video_id
     ∧ active_streams (start_live_chat channel url' st1).1.1 !! channel
         = Some video_id)
  ∧ (start_live_chat channel url' st1).1.1 = st1
  ∧ (start_live_chat channel url' st1).2 = None.
Proof.
  intros Htask st1.
  destruct (start_live_chat_cases channel url st)
    as [(v & _ & Hv & _ & Hst1 & _)|[_ Hno]];
    [|rewrite Hno in Htask; by destruct Htask].
  assert (active_streams st1 !! channel = Some v) as Hreg.
  { unfold st1. rewrite Hst1. simpl. apply lookup_insert_eq. }
  destruct (start_live_chat_taken channel url' st1) as [Hsame Hnone];
    [by rewrite Hreg|].
  split; [|done]. exists v. by rewrite Hsame.
Qed.

Lemma second_start_refused_witness :
  let st1 := (start_live_chat 7 "https://youtu.be/abcdefghijk"
                (on_ready true init)).1.1 in
  (∃ video_id,
     extract_youtube_id "https://youtu.be/abcdefghijk" = Some video_id
     ∧ active_streams st1 !! 7 = Some video_id
     ∧ active_streams
         (start_live_chat 7 "https://youtu.be/zyxwvutsrqp" st1).1.1 !! 7
         = Some video_id)
  ∧ (start_live_chat 7 "https://youtu.be/zyxwvutsrqp" st1).1.1 = st1
  ∧ (start_live_chat 7 "https://youtu.be/zyxwvutsrqp" st1).2 = None.
Proof.
  apply (second_start_refused 7 "https://youtu.be/abcdefghijk"
           "https://youtu.be/zyxwvutsrqp" (on_ready true init)).
  vm_compute. by eexists.
Defined.

(** X5: a stop right after a start that went through gives back the
    state before the start. *)
Theorem start_stop_round_trip channel url st :
  is_Some (start_live_chat channel url st).2 →
  (stop_live_chat channel (start_live_chat channel url st).1.1).1 = st.
Proof.
  intros Htask.
  destruct (start_live_chat_cases channel url st)
    as [(v & _ & _ & Hfree & -> & _)|[_ Hno]];
    [|rewrite Hno in Htask; by destruct Htask].
  unfold stop_live_chat. cbn [active_streams set_active_streams].
  rewrite lookup_insert_eq.
  rewrite bool_decide_eq_true_2 by by eexists. cbn [negb fst].
  apply state_eq; try done. simpl. by apply delete_insert_id.
Qed.

Lemma start_stop_round_trip_witness :
  (stop_live_chat 7
     (start_live_chat 7 "https://youtu.be/abcdefghijk"
        (on_ready true init)).1.1).1
  = on_ready true init.
Proof.
  apply (start_stop_round_trip 7 "https://youtu.be/abcdefghijk").
  vm_compute. by eexists.
Defined.

(** ** The poller *)

Lemma process_item_processed item seen st :
  (process_item item seen st).1.1 = seen ∪ {[item_id item]}.
Proof.
  unfold process_item. case_bool_decide as Hin.
  - simpl. symmetry. rewrite (comm_L (∪) seen).
    by apply subseteq_union_1_L, singleton_subseteq_l.
  - by destruct (is_request _).
Qed.

Lemma process_item_active_streams item seen st :
  active_streams (process_item item seen st).1.2 = active_streams st.
Proof.
  destruct (process_item_cases item seen st) as [->|[e ->]]; done.
Qed.

Lemma process_items_sent_acc items seen st sent :
  foldl process_items_step (seen, st, sent) items
  = ((process_items items seen st).1.1, (process_items items seen st).1.2,
     (sent ++ (process_items items seen st).2)%list).
Proof.
  unfold process_items.
  revert seen st sent. induction items as [|item items IH]; intros seen st sent.
  - simpl. by rewrite app_nil_r.
  - cbn [foldl].
    set (r := process_item item seen st).
    change (process_items_step (seen, st, sent) item)
      with (r.1.1, r.1.2, (sent ++ option_list r.2)%list).
    change (process_items_step (seen, st, []) item)
      with (r.1.1, r.1.2, ([] ++ option_list r.2)%list).
    rewrite IH. rewrite (IH _ _ ([] ++ _)%list). cbn [fst snd].
    by rewrite app_nil_l, app_assoc.
Qed.

Lemma process_items_cons item items seen st :
  process_items (item :: items) seen st
  = let r := process_item item seen st in
    let rs := process_items items r.1.1 r.1.2 in
    (rs.1.1, rs.1.2, (option_list r.2 ++ rs.2)%list).
Proof.
  unfold process_items at 1. cbn [foldl].
  set (r := process_item item seen st).
  change (process_items_step (seen, st, []) item)
    with (r.1.1, r.1.2, ([] ++ option_list r.2)%list).
  rewrite app_nil_l. apply process_items_sent_acc.
Qed.

Lemma process_items_nil seen st : process_items [] seen st = (seen, st, []).
Proof. reflexivity. Qed.

Lemma process_items_app items1 items2 seen st :
  process_items (items1 ++ items2) seen st
  = let r1 := process_items items1 seen st in
    let r2 := process_items items2 r1.1.1 r1.1.2 in
    (r2.1.1, r2.1.2, (r1.2 ++ r2.2)%list).
Proof.
  revert seen st. induction items1 as [|item items1 IH]; intros seen st.
  - rewrite app_nil_l, process_items_nil. cbn [fst snd].
    by destruct (process_items items2 seen st) as [[? ?] ?].
  - rewrite <- app_comm_cons, !process_items_cons. cbn zeta. rewrite IH.
    cbn [fst snd]. by rewrite app_assoc.
Qed.

Lemma process_items_processed items seen st :
  (process_items items seen st).1.1 = seen ∪ list_to_set (item_id <$> items).
Proof.
  revert seen st. induction items as [|item items IH]; intros seen st.
  - simpl. by rewrite (right_id_L ∅ (∪)).
  - rewrite process_items_cons. cbn [fst snd]. cbn zeta.
    rewrite IH, process_item_processed. simpl.
    by rewrite (assoc_L (∪)).
Qed.

Lemma process_items_known items seen st :
  (∀ item, item ∈ items → item_id item ∈ seen) →
  process_items items seen st = (seen, st, []).
Proof.
  revert seen st. induction items as [|item items IH]; intros seen st Hseen;
    [done|].
  rewrite process_items_cons.
  rewrite process_item_seen by (apply Hseen; left). cbn [fst snd]. cbn zeta.
  rewrite IH; [done|]. intros item' Hin. apply Hseen. by right.
Qed.

Lemma process_items_active_streams items seen st :
  active_streams (process_items items seen st).1.2 = active_streams st.
Proof.
  revert seen st. induction items as [|item items IH]; intros seen st; [done|].
  rewrite process_items_cons. cbn [fst snd]. cbn zeta.
  by rewrite IH, process_item_active_streams.
Qed.

(** X6: handling the same items a second time, with the set of handled
    ids the first pass left, appends nothing and sends nothing: an item
    id is forwarded at most once by a poller. *)
Theorem replay_appends_nothing items seen st :
  let r := process_items items seen st in
  (∀ item, item ∈ items → item_id item ∈ r.1.1)
  ∧ process_items items r.1.1 r.1.2 = (r.1.1, r.1.2, [])
  ∧ process_items (items ++ items) seen st = r.
Proof.
  intros r.
  assert (∀ item, item ∈ items → item_id item ∈ r.1.1) as Hseen.
  { intros item Hin. unfold r. rewrite process_items_processed.
    apply elem_of_union_r, elem_of_list_to_set, list_elem_of_fmap.
    by exists item. }
  split; [done|]. split; [by apply process_items_known|].
  rewrite process_items_app. fold r. cbn zeta.
  rewrite process_items_known by done. cbn [fst snd].
  rewrite app_nil_r. by destruct r as [[? ?] ?].
Qed.

Lemma process_items_appends items seen st :
  ∃ es, (process_items items seen st).1.2 = appends st es
        ∧ length es = length (process_items items seen st).2.
Proof.
  revert seen st. induction items as [|item items IH]; intros seen st.
  - by exists [].
  - rewrite process_items_cons. cbn zeta. cbn [fst snd].
    destruct (IH (process_item item seen st).1.1 (process_item item seen st).1.2)
      as (es & -> & Hlen).
    rewrite length_app, <- Hlen. unfold process_item.
    case_bool_decide; [by exists es|].
    destruct (is_request _); [|by exists es].
    by exists ((str_drop 5 (displayMessage item), displayName item) :: es).
Qed.

Lemma appends_frame st es :
  current_idx (appends st es) = current_idx st + Z.of_nat (length es)
  ∧ played_idx (appends st es) = played_idx st
  ∧ active_streams (appends st es) = active_streams st
  ∧ youtube_client (appends st es) = youtube_client st.
Proof.
  revert st. induction es as [|e es IH]; intros st.
  - simpl. repeat split; lia || done.
  - cbn [appends foldl]. fold (appends (append e st) es).
    destruct (IH (append e st)) as (-> & -> & -> & ->).
    rewrite append_current_idx. cbn [length]. repeat split; lia || done.
Qed.

(** X7: one message is relayed to the channel for each entry a page
    appends: the counter grows by the number of embeds sent, and the
    played index and the sessions are not touched. *)
Theorem page_relays_each_append items seen st :
  let r := process_items items seen st in
  current_idx r.1.2 = current_idx st + Z.of_nat (length r.2)
  ∧ (length r.2 ≤ length items)%nat
  ∧ played_idx r.1.2 = played_idx st
  ∧ active_streams r.1.2 = active_streams st.
Proof.
  intros r. destruct (process_items_appends items seen st) as (es & Hst & Hlen).
  fold r in Hst, Hlen. rewrite Hst, <- Hlen.
  destruct (appends_frame st es) as (-> & -> & -> & _).
  repeat split; try done. rewrite Hlen. unfold r. clear.
  revert seen st. induction items as [|item items IH]; intros seen st; [done|].
  rewrite process_items_cons. cbn zeta. cbn [fst snd].
  rewrite length_app. specialize (IH (process_item item seen st).1.1
                                    (process_item item seen st).1.2).
  destruct ((process_item item seen st).2); simpl in *; lia.
Qed.

(** X8: what is kept per channel is kept apart: a start, a stop, the end
    of a poller or a pass of a poller for one channel leaves the session
    of every other channel as it is. *)
Theorem sessions_isolated (c c' : Z) (st : State) :
  c ≠ c' →
  (∀ url, active_streams (start_live_chat c url st).1.1 !! c'
          = active_streams st !! c')
  ∧ active_streams (stop_live_chat c st).1 !! c' = active_streams st !! c'
  ∧ active_streams (poller_cleanup c st) !! c' = active_streams st !! c'
  ∧ (∀ response video_id p,
       active_streams (fetch_iteration response c video_id p st).1.1 !! c'
       = active_streams st !! c').
Proof.
  intros Hne.
  assert (active_streams (poller_cleanup c st) !! c' = active_streams st !! c')
    as Hclean.
  { unfold poller_cleanup. case_bool_decide; [|done].
    simpl. by rewrite lookup_delete_ne. }
  split; [|split; [|split; [done|]]].
  - intros url.
    destruct (start_live_chat_cases c url st)
      as [(v & _ & _ & _ & -> & _)|[-> _]]; [|done].
    simpl. by rewrite lookup_insert_ne.
  - unfold stop_live_chat. case_bool_decide; [|done].
    simpl. by rewrite lookup_delete_ne.
  - intros response video_id p. unfold fetch_iteration.
    destruct (still_active c video_id st); [|done].
    destruct response; [|done].
    cbn [fst]. by rewrite process_items_active_streams.
Qed.

Lemma sessions_isolated_witness :
  (∀ url, active_streams (start_live_chat 1 url one_session).1.1 !! 2
          = active_streams one_session !! 2)
  ∧ active_streams (stop_live_chat 1 one_session).1 !! 2
      = active_streams one_session !! 2
  ∧ active_streams (poller_cleanup 1 one_session) !! 2
      = active_streams one_session !! 2
  ∧ (∀ response video_id p,
       active_streams (fetch_iteration response 1 video_id p one_session).1.1 !! 2
       = active_streams one_session !! 2).
Proof. apply (sessions_isolated 1 2 one_session). lia. Defined.

(** X9: a poller that finds no live chat returns without the clean-up:
    the channel stays registered with the video, and every further start
    in the channel is refused until a stop. *)
Theorem no_chat_keeps_session channel video_id live_chat_id st :
  active_streams st !! channel = Some video_id →
  live_chat_id = None ∨ live_chat_id = Some "" →
  (fetch_begin live_chat_id video_id st).2 = None
  ∧ (fetch_begin live_chat_id video_id st).1.1 = st
  ∧ live_status channel st
      = Text ("✅ Currently monitoring live chat for video: `"
              +:+ video_id +:+ "`")
  ∧ (∀ url, (start_live_chat channel url st).1.1 = st
            ∧ (start_live_chat channel url st).2 = None)
  ∧ active_streams (stop_live_chat channel st).1 !! channel = None.
Proof.
  intros Hreg Hchat.
  split; [by destruct Hchat as [->| ->]|].
  split; [by destruct Hchat as [->| ->]|].
  split; [unfold live_status; by rewrite Hreg|].
  split; [intros url; apply start_live_chat_taken; by rewrite Hreg|].
  unfold stop_live_chat. rewrite Hreg.
  rewrite bool_decide_eq_true_2 by by eexists. simpl. apply lookup_delete_eq.
Qed.

Lemma no_chat_keeps_session_witness :
  (fetch_begin None "abcdefghijk" one_session).2 = None
  ∧ (fetch_begin None "abcdefghijk" one_session).1.1 = one_session
  ∧ live_status 1 one_session
      = Text ("✅ Currently monitoring live chat for video: `"
              +:+ "abcdefghijk" +:+ "`")
  ∧ (∀ url, (start_live_chat 1 url one_session).1.1 = one_session
            ∧ (start_live_chat 1 url one_session).2 = None)
  ∧ active_streams (stop_live_chat 1 one_session).1 !! 1 = None.
Proof.
  apply (no_chat_keeps_session 1 "abcdefghijk" None one_session).
  - reflexivity.
  - by left.
Defined.

(** X10: after a stop the poller of the channel leaves its loop at its
    next pass, without making a request and without changing the state;
    the queue stays as it was before the stop. *)
Theorem stop_ends_poller channel video_id response p st :
  active_streams st !! channel = Some video_id →
  let st' := (stop_live_chat channel st).1 in
  fetch_iteration response channel video_id p st'
    = (st', [Text "🛑 Stopped monitoring live chat."], None)
  ∧ queue st' = queue st.
Proof.
  intros Hreg st'. split; [|apply stop_live_chat_queue].
  assert (active_streams st' !! channel = None) as Hgone.
  { unfold st', stop_live_chat. rewrite Hreg.
    rewrite bool_decide_eq_true_2 by by eexists. simpl. apply lookup_delete_eq. }
  unfold fetch_iteration, still_active, poller_cleanup. rewrite Hgone.
  rewrite bool_decide_eq_false_2 by done.
  by rewrite bool_decide_eq_false_2 by by intros [? ?].
Qed.

Lemma stop_ends_poller_witness :
  let st' := (stop_live_chat 1 one_session).1 in
  fetch_iteration (Failure "quota") 1 "abcdefghijk" (mkPoller "chat" None ∅) st'
    = (st', [Text "🛑 Stopped monitoring live chat."], None)
  ∧ queue st' = queue one_session.
Proof.
  apply (stop_ends_poller 1 "abcdefghijk" (Failure "quota")
           (mkPoller "chat" None ∅) one_session).
  reflexivity.
Defined.

(** X11: the clean-up of a poller removes the session of its channel
    whatever video that session is for. After a stop and a start for
    another video in the same channel, the former poller leaves its loop
    at its next pass and its clean-up removes the new session, so that
    the new poller stops at its next pass as well. *)
Theorem restart_lost_to_old_poller channel url v1 v2 response p st :
  youtube_client st = true →
  active_streams st !! channel = Some v1 →
  extract_youtube_id url = Some v2 → v2 ≠ v1 →
  let st' := (start_live_chat channel url (stop_live_chat channel st).1).1.1 in
  active_streams st' !! channel = Some v2
  ∧ (fetch_iteration response channel v1 p st').2 = None
  ∧ active_streams (fetch_iteration response channel v1 p st').1.1 !! channel
      = None
  ∧ still_active channel v2 (fetch_iteration response channel v1 p st').1.1
      = false.
Proof.
  intros Hclient Hreg Hurl Hne st'.
  assert (active_streams st' !! channel = Some v2) as Hnew.
  { unfold st', stop_live_chat, start_live_chat. rewrite Hreg.
    rewrite bool_decide_eq_true_2 by by eexists.
    cbn [negb fst youtube_client set_active_streams active_streams].
    rewrite Hclient, Hurl, lookup_delete_eq. cbn [negb].
    rewrite bool_decide_eq_false_2 by by intros [? ?].
    simpl. apply lookup_insert_eq. }
  split; [done|].
  unfold fetch_iteration, still_active. rewrite Hnew.
  rewrite bool_decide_eq_false_2 by congruence. cbn [fst snd].
  unfold poller_cleanup. rewrite Hnew.
  rewrite bool_decide_eq_true_2 by by eexists.
  cbn [active_streams set_active_streams]. rewrite lookup_delete_eq.
  split; [done|]. split; [done|]. by apply bool_decide_eq_false_2.
Qed.

Lemma restart_lost_to_old_poller_witness :
  let st' := (start_live_chat 1 "https://youtu.be/zyxwvutsrqp"
                (stop_live_chat 1 one_session).1).1.1 in
  active_streams st' !! 1 = Some "zyxwvutsrqp"
  ∧ (fetch_iteration (Page [] None) 1 "abcdefghijk"
       (mkPoller "chat" None ∅) st').2 = None
  ∧ active_streams
      (fetch_iteration (Page [] None) 1 "abcdefghijk"
         (mkPoller "chat" None ∅) st').1.1 !! 1 = None
  ∧ still_active 1 "zyxwvutsrqp"
      (fetch_iteration (Page [] None) 1 "abcdefghijk"
         (mkPoller "chat" None ∅) st').1.1 = false.
Proof.
  apply (restart_lost_to_old_poller 1 "https://youtu.be/zyxwvutsrqp"
           "abcdefghijk" "zyxwvutsrqp" (Page [] None) (mkPoller "chat" None ∅)
           one_session); try reflexivity.
  discriminate.
Defined.

(** X12: when the request of a running poller fails, the poller reports
    the error, removes the session of its channel and ends; the queue is
    kept, and the channel is free for a new start. *)
Theorem failure_ends_session channel video_id e p st :
  still_active channel video_id st = true →
  let r := fetch_iteration (Failure e) channel video_id p st in
  r.2 = None
  ∧ r.1.2 = [ Text ("❌ Error while fetching live chat: " +:+ e);
              Text "🛑 Stopped monitoring live chat." ]
  ∧ active_streams r.1.1 !! channel = None
  ∧ queue r.1.1 = queue st
  ∧ (∀ url, youtube_client st = true → is_Some (extract_youtube_id url) →
            is_Some (start_live_chat channel url r.1.1).2).
Proof.
  intros Hact r. unfold r, fetch_iteration. rewrite Hact. cbn [fst snd].
  apply bool_decide_eq_true in Hact.
  assert (active_streams (poller_cleanup channel st) !! channel = None) as Hgone.
  { unfold poller_cleanup. rewrite Hact.
    rewrite bool_decide_eq_true_2 by by eexists. simpl. apply lookup_delete_eq. }
  split; [done|]. split; [done|]. split; [done|].
  split; [apply poller_cleanup_queue|].
  intros url Hclient [v Hv]. unfold start_live_chat.
  replace (youtube_client (poller_cleanup channel st)) with true
    by (unfold poller_cleanup; by case_bool_decide).
  cbn [negb]. rewrite Hv, Hgone.
  rewrite bool_decide_eq_false_2 by by intros [? ?]. by eexists.
Qed.

Lemma failure_ends_session_witness :
  let r := fetch_iteration (Failure "quota") 1 "abcdefghijk"
             (mkPoller "chat" None ∅) one_session in
  r.2 = None
  ∧ r.1.2 = [ Text ("❌ Error while fetching live chat: " +:+ "quota");
              Text "🛑 Stopped monitoring live chat." ]
  ∧ active_streams r.1.1 !! 1 = None
  ∧ queue r.1.1 = queue one_session
  ∧ (∀ url, youtube_client one_session = true →
            is_Some (extract_youtube_id url) →
            is_Some (start_live_chat 1 url r.1.1).2).
Proof.
  apply (failure_ends_session 1 "abcdefghijk" "quota" (mkPoller "chat" None ∅)
           one_session).
  reflexivity.
Defined.

(** ** [add] *)

Lemma has_char_cons (c a : ascii) (s : string) :
  has_char c (String a s) = Ascii.eqb a c || has_char c s.
Proof.
  unfold has_char. simpl. rewrite negb_andb. by rewrite negb_involutive.
Qed.

Lemma split_nonempty (sep : ascii) (s : string) : split sep s ≠ [].
Proof.
  destruct s as [|c s]; simpl; [done|].
  destruct (Ascii.eqb c sep); [done|]. by destruct (split sep s).
Qed.

Lemma split_no_sep (sep : ascii) (s : string) :
  has_char sep s = false → split sep s = [s].
Proof.
  induction s as [|c s IH]; [done|]. rewrite has_char_cons.
  intros [Hc Hs]%orb_false_iff. simpl. by rewrite Hc, IH.
Qed.

Lemma split_first (sep : ascii) (a r : string) :
  has_char sep a = false →
  split sep (a +:+ String sep r) = a :: split sep r.
Proof.
  induction a as [|c a IH].
  - intros _. rewrite string_app_nil_l. simpl. by rewrite Ascii.eqb_refl.
  - rewrite has_char_cons. intros [Hc Ha]%orb_false_iff.
    rewrite string_app_cons. simpl. by rewrite Hc, IH.
Qed.

Lemma has_char_first (sep : ascii) (s : string) :
  has_char sep s = true →
  ∃ a r, s = a +:+ String sep r ∧ has_char sep a = false.
Proof.
  induction s as [|c s IH]; [done|]. rewrite has_char_cons.
  destruct (Ascii.eqb_spec c sep) as [->|Hne].
  - intros _. by exists "", s.
  - simpl. intros (a & r & -> & Ha)%IH. exists (String c a), r.
    split; [done|]. rewrite has_char_cons, Ha.
    by apply orb_false_iff, conj; [apply Ascii.eqb_neq|].
Qed.

Lemma split_second (sep : ascii) (s : string) :
  is_Some (split sep s !! 1%nat) ↔ has_char sep s = true.
Proof.
  destruct (has_char sep s) eqn:Hs.
  - destruct (has_char_first sep s Hs) as (a & r & -> & Ha).
    rewrite split_first by done. pose proof (split_nonempty sep r).
    destruct (split sep r); [done|]. split; [done|]. by eexists.
  - rewrite split_no_sep by done. split; [by intros [? ?]|done].
Qed.

(** X13: [add] appends exactly when the channel has a session and the
    argument has a hyphen. Without a session it answers that nothing is
    monitored; with a session and no hyphen it ends in the exception of
    the index, before anything is written. *)
Theorem add_outcomes channel song st :
  ((add channel song st).1 ≠ st
   ↔ is_Some (active_streams st !! channel) ∧ has_char "-" song = true)
  ∧ ((add channel song st).2 = Raised
     ↔ is_Some (active_streams st !! channel) ∧ has_char "-" song = false)
  ∧ (active_streams st !! channel = None →
     add channel song st
       = (st, Text "❌ No active live chat monitoring in this channel.")).
Proof.
  unfold add. case_bool_decide as Hact.
  - pose proof (split_second "-" song) as Hsecond.
    pose proof (split_nonempty "-" song) as Hne.
    destruct (split "-" song) as [|part0 parts]; [done|]. cbn [lookup list_lookup].
    destruct parts as [|nama_request parts]; cbn [lookup list_lookup] in *.
    + assert (has_char "-" song = false) as ->.
      { destruct (has_char "-" song); [|done].
        destruct (proj2 Hsecond eq_refl) as [? ?]. done. }
      split; [split; [done|by intros [_ ?]]|].
      split; [done|]. intros Hnone. rewrite Hnone in Hact. by destruct Hact.
    + rewrite (proj1 Hsecond) by by eexists.
      split; [split; [done|]|].
      * intros _ Heq. cbn [fst] in Heq. apply (f_equal current_idx) in Heq.
        rewrite append_current_idx in Heq. lia.
      * split; [split; [done|by intros [_ ?]]|].
        intros Hnone. rewrite Hnone in Hact. by destruct Hact.
  - split; [split; [done|by intros [? _]]|].
    split; [split; [done|by intros [? _]]|]. done.
Qed.

(** X14: the title [add] stores is the text before the first hyphen
    behind the mark [(Trakteer) - ], the requester is the text between
    the first and the second hyphen; what follows a second hyphen is
    dropped. *)
Theorem add_parses channel a b st :
  is_Some (active_streams st !! channel) →
  has_char "-" a = false → has_char "-" b = false →
  let entry := ("(Trakteer) - " +:+ a, b) in
  add channel (a +:+ "-" +:+ b) st
    = (append entry st,
       Card (request_embed entry.1 entry.2 "Trakteer Request Chat"))
  ∧ (∀ rest, add channel (a +:+ "-" +:+ b +:+ "-" +:+ rest) st
             = add channel (a +:+ "-" +:+ b) st)
  ∧ song_list (add channel (a +:+ "-" +:+ b) st).1 !! (current_idx st + 1)
      = Some entry.
Proof.
  intros Hact Ha Hb entry.
  assert (add channel (a +:+ "-" +:+ b) st
          = (append entry st,
             Card (request_embed entry.1 entry.2 "Trakteer Request Chat")))
    as Hadd.
  { unfold add. rewrite bool_decide_eq_true_2 by done.
    change ("-" +:+ b) with (String "-" b).
    by rewrite split_first, (split_no_sep _ b) by done. }
  split; [done|]. split.
  - intros rest. rewrite Hadd. unfold add.
    rewrite bool_decide_eq_true_2 by done.
    change ("-" +:+ b +:+ "-" +:+ rest) with (String "-" (b +:+ String "-" rest)).
    by rewrite split_first, split_first by done.
  - rewrite Hadd. cbn [fst]. by rewrite append_song_list, lookup_insert_eq.
Qed.

Lemma add_parses_witness :
  let entry := ("(Trakteer) - " +:+ "Miniatur", "Ryoda") in
  add 1 ("Miniatur" +:+ "-" +:+ "Ryoda") one_session
    = (append entry one_session,
       Card (request_embed entry.1 entry.2 "Trakteer Request Chat"))
  ∧ (∀ rest, add 1 ("Miniatur" +:+ "-" +:+ "Ryoda" +:+ "-" +:+ rest) one_session
             = add 1 ("Miniatur" +:+ "-" +:+ "Ryoda") one_session)
  ∧ song_list (add 1 ("Miniatur" +:+ "-" +:+ "Ryoda") one_session).1
      !! (current_idx one_session + 1)
      = Some entry.
Proof.
  apply (add_parses 1 "Miniatur" "Ryoda" one_session).
  - vm_compute. by eexists.
  - reflexivity.
  - reflexivity.
Defined.

(** ** The request filter *)

Lemma lower_ascii_bang (c : ascii) : lower_ascii c = "!"%char ↔ c = "!"%char.
Proof.
  split; [|by intros ->].
  destruct c as [[] [] [] [] [] [] [] []]; vm_compute; congruence.
Qed.

Lemma lower_ascii_r (c : ascii) :
  lower_ascii c = "r"%char ↔ c = "r"%char ∨ c = "R"%char.
Proof.
  split; [|by intros [->| ->]].
  destruct c as [[] [] [] [] [] [] [] []]; vm_compute; intros H;
    first [discriminate H | by left | by right].
Qed.

Lemma lower_ascii_e (c : ascii) :
  lower_ascii c = "e"%char ↔ c = "e"%char ∨ c = "E"%char.
Proof.
  split; [|by intros [->| ->]].
  destruct c as [[] [] [] [] [] [] [] []]; vm_compute; intros H;
    first [discriminate H | by left | by right].
Qed.

Lemma lower_ascii_q (c : ascii) :
  lower_ascii c = "q"%char ↔ c = "q"%char ∨ c = "Q"%char.
Proof.
  split; [|by intros [->| ->]].
  destruct c as [[] [] [] [] [] [] [] []]; vm_compute; intros H;
    first [discriminate H | by left | by right].
Qed.

Lemma prefix_cons (a b : ascii) (p s : string) :
  String.prefix (String a p) (String b s) = true
  ↔ a = b ∧ String.prefix p s = true.
Proof.
  simpl. destruct (ascii_dec a b); [by split; [|intros [_ ?]]|].
  split; [done|by intros [? _]].
Qed.

(** X15: the filter looks at the first four characters only: a text is
    a request exactly when it starts with [!], then [r] or [R], then [e]
    or [E], then [q] or [Q]; nothing is asked of what follows, no blank
    either. *)
Theorem is_request_first_four (message_text : string) :
  is_request message_text = true
  ↔ ∃ c1 c2 c3 rest,
      message_text = String "!" (String c1 (String c2 (String c3 rest)))
      ∧ (c1 = "r" ∨ c1 = "R")%char ∧ (c2 = "e" ∨ c2 = "E")%char
      ∧ (c3 = "q" ∨ c3 = "Q")%char.
Proof.
  unfold is_request, startswith. split.
  - destruct message_text as [|c0 [|c1 [|c2 [|c3 rest]]]]; try done;
      cbn [lower]; rewrite ?prefix_cons; try (by intros (_ & _ & ?));
      try (by intros (_ & ?)); try (by intros (_ & _ & _ & ?)).
    intros (H0 & H1 & H2 & H3 & _).
    symmetry in H0, H1, H2, H3.
    apply lower_ascii_bang in H0 as ->. apply lower_ascii_r in H1.
    apply lower_ascii_e in H2. apply lower_ascii_q in H3.
    by exists c1, c2, c3, rest.
  - intros (c1 & c2 & c3 & rest & -> & H1 & H2 & H3).
    apply lower_ascii_r in H1. apply lower_ascii_e in H2.
    apply lower_ascii_q in H3. cbn [lower]. rewrite !prefix_cons.
    rewrite H1, H2, H3. repeat split; try done. by destruct (lower rest).
Qed.

Lemma skip_continuation_len (s : string) :
  str_len (skip_continuation s) = count_leads s.
Proof.
  induction s as [|c s IH]; [done|]. simpl.
  by destruct (is_continuation c).
Qed.

Lemma str_drop_short (n : nat) (s : string) :
  (str_len s ≤ n)%nat → str_drop n s = "".
Proof.
  revert s. induction n as [|n IH]; intros s Hlen.
  - destruct s; [done|simpl in Hlen; lia].
  - destruct s as [|c s]; [done|]. simpl in *. apply IH.
    rewrite skip_continuation_len. lia.
Qed.

(** X16: a request of at most five characters, such as the bare marker,
    is queued all the same, with the empty title. *)
Theorem short_request_has_empty_title item seen st :
  item_id item ∉ seen →
  is_request (displayMessage item) = true →
  (str_len (displayMessage item) ≤ 5)%nat →
  (process_item item seen st).1.2 = append ("", displayName item) st
  ∧ song_list (process_item item seen st).1.2 !! (current_idx st + 1)
      = Some ("", displayName item).
Proof.
  intros Hnew Hreq Hlen. rewrite process_item_new, Hreq by done.
  rewrite str_drop_short by done. split; [done|].
  by rewrite append_song_list, lookup_insert_eq.
Qed.

Lemma short_request_has_empty_title_witness :
  (process_item (mkItem "m9" "!reqé" "Alice") ∅ init).1.2
    = append ("", displayName (mkItem "m9" "!reqé" "Alice")) init
  ∧ song_list (process_item (mkItem "m9" "!reqé" "Alice") ∅ init).1.2
      !! (current_idx init + 1)
      = Some ("", displayName (mkItem "m9" "!reqé" "Alice")).
Proof.
  apply (short_request_has_empty_title (mkItem "m9" "!reqé" "Alice") ∅ init).
  - vm_compute. intros H. inversion H.
  - reflexivity.
  - vm_compute. lia.
Defined.

Example short_request_bare_marker :
  song_list (process_item (mkItem "m9" "!req" "Alice") ∅ init).1.2 !! 1
    = Some ("", "Alice").
Proof. reflexivity. Qed.

(** ** Reading the queue *)

Lemma Inv_nonempty st : Inv st → song_list st ≠ ∅ → 1 ≤ current_idx st.
Proof.
  intros [Hd _] Hne. destruct (decide (1 ≤ current_idx st)); [done|].
  exfalso. apply Hne, dense_empty; [done|lia].
Qed.

Lemma current_song_card channel st :
  Inv st → ∃ e, current_song channel st = Card e.
Proof.
  intros HI. pose proof HI as [Hd Hb]. unfold current_song.
  destruct (is_empty (song_list st)) eqn:Hempty; [by eexists|].
  apply is_empty_false in Hempty.
  pose proof (Inv_nonempty st HI Hempty) as HN.
  case_bool_decide as Hp.
  - rewrite bool_decide_eq_true_2 by lia.
    destruct (proj2 (Hd 1) ltac:(lia)) as [s ->]. by eexists.
  - destruct (proj2 (Hd (played_idx st)) ltac:(lia)) as [s ->]. by eexists.
Qed.

Lemma next_card_reply channel st :
  Inv st → ∃ e, (next channel st).2 = Card e.
Proof.
  intros HI. pose proof HI as [Hd Hb].
  destruct (decide (song_list st = ∅)) as [Hempty|Hne].
  - unfold next. rewrite (proj2 (is_empty_true _) Hempty). by eexists.
  - pose proof (Inv_nonempty st HI Hne) as HN.
    destruct (decide (played_idx st < current_idx st)) as [Hlt|Hge].
    + destruct (next_below channel st) as (cur & rest & _ & ->); [done|lia|].
      by eexists.
    + rewrite next_at_end by (done || lia). by eexists.
Qed.

Lemma delete_song_no_raise channel k st : (delete_song channel k st).2 ≠ Raised.
Proof.
  unfold delete_song. destruct (is_empty _); [done|].
  destruct (_ || _); [done|]. destruct (song_list st !! k); [|done].
  by case_bool_decide.
Qed.

Lemma songs_to_show_keys st :
  Inv st → ∀ i, i ∈ songs_to_show st → 1 ≤ i ≤ current_idx st.
Proof.
  intros [_ Hb] i. unfold songs_to_show, range.
  repeat case_bool_decide; set_unfold; lia.
Qed.

Lemma song_fields_is_Some st i :
  is_Some (song_fields st i) ↔ is_Some (song_list st !! i).
Proof.
  unfold song_fields. destruct (song_list st !! i); [|by split; intros [? ?]].
  split; [by eexists|]. intros _. by eexists.
Qed.

Lemma list_song_card channel st :
  Inv st → ∃ e, list_song channel st = Card e.
Proof.
  intros HI. unfold list_song.
  destruct (is_empty (song_list st)); [by eexists|].
  destruct (mapM_is_Some_2 (song_fields st) (songs_to_show st)) as [fss ->];
    [|by eexists].
  apply Forall_forall. intros i Hi. apply song_fields_is_Some.
  apply (proj1 HI). by apply songs_to_show_keys.
Qed.

(** X17: in every state a run can reach, [current_song], [list_song],
    [next] and [delete] answer with a message: no lookup of theirs
    raises. *)
Theorem commands_never_raise (ops : list Op) (channel k : Z) :
  current_song channel (run ops) ≠ Raised
  ∧ list_song channel (run ops) ≠ Raised
  ∧ (next channel (run ops)).2 ≠ Raised
  ∧ (delete_song channel k (run ops)).2 ≠ Raised.
Proof.
  pose proof (run_Inv ops) as HI.
  destruct (current_song_card channel _ HI) as [e1 ->].
  destruct (list_song_card channel _ HI) as [e2 ->].
  destruct (next_card_reply channel _ HI) as [e3 ->].
  repeat split; try done. apply delete_song_no_raise.
Qed.

Lemma songs_to_show_NoDup st : NoDup (songs_to_show st).
Proof.
  unfold songs_to_show, range.
  repeat case_bool_decide;
    repeat first [ apply NoDup_seqZ | apply NoDup_nil_2
                 | apply NoDup_app; split_and! ];
    try (set_unfold; lia).
  all: apply NoDup_singleton.
Qed.

Lemma songs_to_show_length st :
  Inv st →
  (length (songs_to_show st) ≤ 24)%nat
  ∧ (len (song_list st) > 24 → (length (songs_to_show st) ≤ 23)%nat).
Proof.
  intros HI. pose proof (Inv_counted st HI) as Hc. unfold counted in Hc.
  destruct HI as [_ Hb]. unfold songs_to_show, range.
  case_bool_decide as Htotal.
  { rewrite length_seqZ. lia. }
  case_bool_decide as Hlong; [|lia].
  case_bool_decide; rewrite ?length_app, ?length_seqZ; simpl; lia.
Qed.

(** The gap mark is shown before the number [i]. *)
Lemma song_fields_length st i fs :
  song_fields st i = Some fs →
  (length fs = 1%nat
   ∨ (length fs = 2%nat ∧ i = played_idx st ∧ len (song_list st) > 24)).
Proof.
  unfold song_fields. destruct (song_list st !! i) as [s|]; [|done].
  intros [= <-]. rewrite length_app. cbn [mbind option_bind length].
  destruct (bool_decide (len (song_list st) > 24)) eqn:H24;
    [apply bool_decide_eq_true in H24|by left].
  destruct (bool_decide (played_idx st > 3)); [|by left]. cbn [andb].
  case_bool_decide; [|by left]. right. simpl. done.
Qed.

Lemma fields_plain st l fss :
  Forall2 (λ i fs, song_fields st i = Some fs) l fss →
  (len (song_list st) ≤ 24 ∨ played_idx st ∉ l) →
  length (mjoin fss) = length l.
Proof.
  induction 1 as [|i fs l fss Hi _ IH]; intros Hgap; [done|].
  change (mjoin (fs :: fss)) with (fs ++ mjoin fss)%list.
  rewrite length_app, IH; cbn [length].
  - destruct (song_fields_length st i fs Hi) as [->|(_ & -> & ?)]; [done|].
    destruct Hgap as [?|Hnotin]; [lia|]. exfalso. apply Hnotin. left.
  - destruct Hgap as [?|Hnotin]; [by left|]. right. intros ?. apply Hnotin.
    by right.
Qed.

Lemma fields_one_gap st l fss :
  Forall2 (λ i fs, song_fields st i = Some fs) l fss → NoDup l →
  (length (mjoin fss) ≤ length l + 1)%nat.
Proof.
  induction 1 as [|i fs l fss Hi Hrest IH]; intros Hnodup; [simpl; lia|].
  apply NoDup_cons in Hnodup as [Hnotin Hnodup].
  change (mjoin (fs :: fss)) with (fs ++ mjoin fss)%list.
  rewrite length_app. cbn [length].
  destruct (song_fields_length st i fs Hi) as [->|(-> & -> & _)].
  - specialize (IH Hnodup). lia.
  - rewrite (fields_plain st l fss Hrest) by by right. lia.
Qed.

(** X18: in every state a run can reach, [list_song] answers with a
    card of at most 24 fields, one below the limit of 25 the code keeps
    clear of. *)
Theorem list_song_fits (ops : list Op) (channel : Z) :
  ∃ e, list_song channel (run ops) = Card e
       ∧ (length (embed_fields e) ≤ 24)%nat.
Proof.
  pose proof (run_Inv ops) as HI. set (st := run ops) in *.
  unfold list_song.
  destruct (is_empty (song_list st)) eqn:Hempty;
    [eexists; split; [done|simpl; lia]|].
  destruct (mapM (song_fields st) (songs_to_show st)) as [fss|] eqn:Hfss.
  - eexists. split; [done|]. cbn [embed_fields titled].
    apply mapM_Some_1 in Hfss.
    destruct (songs_to_show_length st HI) as [H24 H23].
    destruct (decide (len (song_list st) ≤ 24)) as [Hfew|Hmany].
    + rewrite (fields_plain st _ _ Hfss) by by left. done.
    + pose proof (fields_one_gap st _ _ Hfss (songs_to_show_NoDup st)).
      specialize (H23 ltac:(lia)). lia.
  - exfalso. destruct (list_song_card channel st HI) as [e He].
    unfold list_song in He. by rewrite Hempty, Hfss in He.
Qed.

(** X19: what [list_song] shows of a queue that keeps its invariants:
    only numbers that are in the queue, none twice, the playing one if
    there is one, and the one that comes next if there is one. *)
Theorem shown_numbers st :
  Inv st →
  (∀ i, i ∈ songs_to_show st → is_Some (song_list st !! i))
  ∧ NoDup (songs_to_show st)
  ∧ (1 ≤ played_idx st → played_idx st ∈ songs_to_show st)
  ∧ (played_idx st < current_idx st →
     played_idx st + 1 ∈ songs_to_show st).
Proof.
  intros HI. split; [|split; [apply songs_to_show_NoDup|]].
  { intros i Hi. apply (proj1 HI). by apply songs_to_show_keys. }
  destruct HI as [_ Hb]. unfold songs_to_show, range.
  split; intros Hp; repeat case_bool_decide; set_unfold; lia.
Qed.

Lemma shown_numbers_witness :
  (∀ i, i ∈ songs_to_show (run scenario) →
        is_Some (song_list (run scenario) !! i))
  ∧ NoDup (songs_to_show (run scenario))
  ∧ (1 ≤ played_idx (run scenario) →
     played_idx (run scenario) ∈ songs_to_show (run scenario))
  ∧ (played_idx (run scenario) < current_idx (run scenario) →
     played_idx (run scenario) + 1 ∈ songs_to_show (run scenario)).
Proof. apply (shown_numbers (run scenario)). apply run_Inv. Defined.

(** X20: the window of a queue of more than 24 entries. With nothing
    played, the first 23 numbers are shown. With a playing entry, the
    last three played numbers and all that follow are shown when they
    are at most 23; otherwise the playing number and the next 22 at
    most, and nothing before the playing one. *)
Theorem window_of_long_queue st :
  Inv st → len (song_list st) > 24 →
  let p := played_idx st in
  let N := current_idx st in
  (p = 0 → songs_to_show st = seqZ 1 23)
  ∧ (1 ≤ p → Z.min p 3 + (N - p) ≤ 23 →
     songs_to_show st = seqZ (Z.max 1 (p - 2)) (N + 1 - Z.max 1 (p - 2)))
  ∧ (1 ≤ p → Z.min p 3 + (N - p) > 23 →
     songs_to_show st = p :: seqZ (p + 1) (Z.min 22 (N - p))).
Proof.
  intros HI Hlong p N. pose proof (Inv_counted st HI) as Hc.
  unfold counted in Hc. destruct HI as [_ Hb]. fold p N in Hb, Hc.
  unfold songs_to_show, range. fold p N.
  rewrite (bool_decide_eq_false_2 (len (song_list st) ≤ 24)) by lia.
  split; [|split].
  - intros Hp. rewrite (bool_decide_eq_false_2 (p > 0)) by lia.
    rewrite (bool_decide_eq_true_2 (p < N)) by lia.
    rewrite app_nil_l, length_seqZ.
    rewrite bool_decide_eq_true_2 by lia. f_equal. lia.
  - intros Hp Hfit. rewrite (bool_decide_eq_true_2 (p > 0)) by lia.
    assert (Z.of_nat (length
              (seqZ (Z.max 1 (p - 2)) (p + 1 - Z.max 1 (p - 2))
               ++ (if bool_decide (p < N)
                   then seqZ (p + 1) (N + 1 - (p + 1)) else [])))
            = Z.min p 3 + (N - p)) as Hlen.
    { case_bool_decide; rewrite length_app, length_seqZ, ?length_seqZ;
        simpl; lia. }
    rewrite Hlen. rewrite bool_decide_eq_false_2 by lia.
    case_bool_decide.
    + replace (N + 1 - Z.max 1 (p - 2))
        with ((p + 1 - Z.max 1 (p - 2)) + (N + 1 - (p + 1))) by lia.
      rewrite seqZ_app by lia. do 2 f_equal. lia.
    + rewrite app_nil_r. f_equal. lia.
  - intros Hp Hover. rewrite (bool_decide_eq_true_2 (p > 0)) by lia.
    assert (Z.of_nat (length
              (seqZ (Z.max 1 (p - 2)) (p + 1 - Z.max 1 (p - 2))
               ++ (if bool_decide (p < N)
                   then seqZ (p + 1) (N + 1 - (p + 1)) else [])))
            = Z.min p 3 + (N - p)) as Hlen.
    { case_bool_decide; rewrite length_app, length_seqZ, ?length_seqZ;
        simpl; lia. }
    rewrite Hlen. rewrite bool_decide_eq_true_2 by lia.
    simpl. do 2 f_equal. lia.
Qed.

Lemma long_queue_Inv : Inv long_queue.
Proof.
  split; [|vm_compute; split; discriminate].
  apply (holds_dense _ ([] ++ replicate 30 song_a)), appends_holds. by split.
Qed.

Lemma window_of_long_queue_witness :
  let p := played_idx long_queue in
  let N := current_idx long_queue in
  (p = 0 → songs_to_show long_queue = seqZ 1 23)
  ∧ (1 ≤ p → Z.min p 3 + (N - p) ≤ 23 →
     songs_to_show long_queue
       = seqZ (Z.max 1 (p - 2)) (N + 1 - Z.max 1 (p - 2)))
  ∧ (1 ≤ p → Z.min p 3 + (N - p) > 23 →
     songs_to_show long_queue = p :: seqZ (p + 1) (Z.min 22 (N - p))).
Proof.
  apply (window_of_long_queue long_queue).
  - apply long_queue_Inv.
  - vm_compute. reflexivity.
Defined.

(** ** The listing of a short queue *)

Lemma song_fields_row st i s :
  len (song_list st) ≤ 24 → song_list st !! i = Some s →
  song_fields st i = Some [row st i s].
Proof.
  intros Hfew Hs. unfold song_fields, row. rewrite Hs.
  rewrite (bool_decide_eq_false_2 (len (song_list st) > 24)) by lia.
  cbn [andb mbind option_bind app]. by repeat case_bool_decide.
Qed.

Lemma mapM_song_fields st (xs : list Song) (a : Z) :
  len (song_list st) ≤ 24 →
  (∀ (j : nat) x, xs !! j = Some x → song_list st !! (a + Z.of_nat j) = Some x) →
  mapM (song_fields st) (seqZ a (Z.of_nat (length xs)))
  = Some ((λ f, [f]) <$> zip_with (row st) (seqZ a (Z.of_nat (length xs))) xs).
Proof.
  intros Hfew. revert a. induction xs as [|x xs IH]; intros a Hxs; [done|].
  rewrite seqZ_cons by (simpl; lia).
  replace (Z.pred (Z.of_nat (length (x :: xs)))) with (Z.of_nat (length xs))
    by (simpl; lia).
  cbn [mapM zip_with fmap list_fmap].
  rewrite (song_fields_row st a x Hfew).
  2:{ rewrite <- (Hxs 0%nat x eq_refl). f_equal. lia. }
  rewrite IH; [done|]. intros j y Hj.
  replace (Z.succ a + Z.of_nat j) with (a + Z.of_nat (S j)) by lia.
  by apply Hxs.
Qed.

Lemma join_singletons {A} (l : list A) : mjoin ((λ f, [f]) <$> l) = l.
Proof. induction l as [|x l IH]; [done|]. simpl. by f_equal. Qed.

(** X21: a queue of 1 to 24 entries is listed whole and in order, one
    field for each number, marked played below the played index, playing
    at it and upcoming above it, with the count of played and of all
    entries in the footer. *)
Theorem list_song_short channel st (l : list Song) :
  holds st l → (1 ≤ length l ≤ 24)%nat →
  list_song channel st
  = Card (titled "List song"
            (zip_with (row st) (seqZ 1 (Z.of_nat (length l))) l)
            (Some (str (played_idx st) +:+ "/" +:+ str (Z.of_nat (length l))
                   +:+ " played | Total: " +:+ str (Z.of_nat (length l))
                   +:+ " songs"))).
Proof.
  intros Hl Hlen. pose proof (holds_len st l Hl) as HN.
  pose proof Hl as [Hm Hn].
  assert (song_list st ≠ ∅) as Hne.
  { apply dense_nonempty; [by eapply holds_dense|lia]. }
  unfold list_song. rewrite (proj2 (is_empty_false _) Hne). cbn [negb].
  unfold songs_to_show. rewrite bool_decide_eq_true_2 by lia.
  unfold range. replace (current_idx st + 1 - 1) with (Z.of_nat (length l)) by lia.
  rewrite (mapM_song_fields st l 1) by
    (lia || (intros j x Hj; rewrite Hm; apply lookup_map_seqZ_Some;
             split; [lia|]; by replace (Z.to_nat (1 + Z.of_nat j - 1)) with j by lia)).
  cbn [fmap option_fmap option_map mbind option_bind].
  by rewrite join_singletons, HN.
Qed.

Lemma list_song_short_witness :
  list_song 7 (run scenario)
  = Card (titled "List song"
            (zip_with (row (run scenario))
               (seqZ 1 (Z.of_nat (length [song_a; song_b]))) [song_a; song_b])
            (Some (str (played_idx (run scenario)) +:+ "/"
                   +:+ str (Z.of_nat (length [song_a; song_b]))
                   +:+ " played | Total: "
                   +:+ str (Z.of_nat (length [song_a; song_b]))
                   +:+ " songs"))).
Proof.
  apply (list_song_short 7 (run scenario) [song_a; song_b]).
  - split; vm_compute; reflexivity.
  - simpl. lia.
Defined.

(** ** The answers of [delete] *)

Lemma holds_nonempty st l : holds st l → l ≠ [] → song_list st ≠ ∅.
Proof.
  intros Hl Hne. apply dense_nonempty; [by eapply holds_dense|].
  destruct Hl as [_ ->]. destruct l; [done|simpl; lia].
Qed.

Lemma delete_song_goes_through channel k st l :
  holds st l → 1 ≤ k ≤ Z.of_nat (length l) → k ≠ played_idx st →
  ∃ x, l !! Z.to_nat (k - 1) = Some x
       ∧ delete_song channel k st
         = (delete_entry k st, Card (deleted_embed k x (delete_entry k st))).
Proof.
  intros Hl Hk Hne.
  destruct (holds_middle st l k Hl Hk) as (l1 & x & l2 & El & Ek & _ & Hx).
  exists x. split.
  { rewrite El, Ek. replace (Z.to_nat (1 + Z.of_nat (length l1) - 1))
      with (length l1) by lia. by rewrite list_lookup_middle. }
  unfold delete_song.
  rewrite (proj2 (is_empty_false _))
    by (apply (holds_nonempty st l Hl); intros ->; simpl in Hk; lia).
  destruct Hl as [_ Hn].
  rewrite (bool_decide_eq_false_2 (k < 1)) by lia.
  rewrite (bool_decide_eq_false_2 (k > current_idx st)) by lia. cbn [orb].
  rewrite Hx. by rewrite bool_decide_eq_false_2.
Qed.

(** X22: the answers of [delete] on a queue that holds [l] under
    [1..N]: the empty queue, a number outside [1..N] and the playing
    number are refused with their message and the state is kept; every
    other number is deleted, and the card names the entry that was under
    the number and counts [N - 1] remaining. The message that the song
    is not found is never given. *)
Theorem delete_song_answers channel k st (l : list Song) :
  holds st l →
  let N := Z.of_nat (length l) in
  (l = [] → delete_song channel k st = (st, Text msg_queue_empty))
  ∧ (l ≠ [] → k < 1 ∨ N < k →
     delete_song channel k st = (st, Text (msg_invalid_id N)))
  ∧ (1 ≤ k ≤ N → k = played_idx st →
     delete_song channel k st = (st, Text msg_protected))
  ∧ (1 ≤ k ≤ N → k ≠ played_idx st →
     ∃ x, l !! Z.to_nat (k - 1) = Some x
          ∧ (delete_song channel k st).2
            = Card (titled "Song Deleted"
                      [ ("Deleted Song #" +:+ str k, "🗑️ " +:+ fmt x);
                        ("Queue Status",
                         "Remaining songs: " +:+ str (N - 1)) ]
                      None)).
Proof.
  intros Hl N. pose proof Hl as [Hm Hn]. fold N in Hn.
  split; [|split; [|split]].
  - intros ->. unfold delete_song. rewrite Hm. done.
  - intros Hne Hk. unfold delete_song.
    rewrite (proj2 (is_empty_false _)) by by apply (holds_nonempty st l).
    rewrite Hn. destruct Hk.
    + by rewrite (bool_decide_eq_true_2 (k < 1)).
    + rewrite (bool_decide_eq_true_2 (k > N)) by lia. by rewrite orb_true_r.
  - intros Hk ->. unfold delete_song.
    rewrite (proj2 (is_empty_false _))
      by (apply (holds_nonempty st l Hl); intros ->; simpl in *; lia).
    rewrite (bool_decide_eq_false_2 (played_idx st < 1)) by lia.
    rewrite (bool_decide_eq_false_2 (played_idx st > current_idx st)) by lia.
    cbn [orb].
    destruct (proj2 (holds_dense st l Hl (played_idx st)) ltac:(lia)) as [x ->].
    by rewrite bool_decide_eq_true_2.
  - intros Hk Hne.
    destruct (delete_song_goes_through channel k st l Hl Hk Hne)
      as (x & Hx & ->).
    exists x. split; [done|]. cbn [snd]. unfold deleted_embed.
    rewrite (holds_len _ _ (delete_entry_holds st l k Hl Hk)).
    rewrite length_delete by by eexists.
    assert (0 < length l)%nat by (apply lookup_lt_Some in Hx; lia).
    by replace (Z.of_nat (length l - 1)) with (N - 1) by (unfold N; lia).
Qed.

Lemma delete_song_answers_witness :
  let N := Z.of_nat (length [song_a; song_b]) in
  ([song_a; song_b] = [] →
   delete_song 7 1 (run scenario) = (run scenario, Text msg_queue_empty))
  ∧ ([song_a; song_b] ≠ [] → 1 < 1 ∨ N < 1 →
     delete_song 7 1 (run scenario) = (run scenario, Text (msg_invalid_id N)))
  ∧ (1 ≤ 1 ≤ N → 1 = played_idx (run scenario) →
     delete_song 7 1 (run scenario) = (run scenario, Text msg_protected))
  ∧ (1 ≤ 1 ≤ N → 1 ≠ played_idx (run scenario) →
     ∃ x, [song_a; song_b] !! Z.to_nat (1 - 1) = Some x
          ∧ (delete_song 7 1 (run scenario)).2
            = Card (titled "Song Deleted"
                      [ ("Deleted Song #" +:+ str 1, "🗑️ " +:+ fmt x);
                        ("Queue Status",
                         "Remaining songs: " +:+ str (N - 1)) ]
                      None)).
Proof.
  apply (delete_song_answers 7 1 (run scenario) [song_a; song_b]).
  split; vm_compute; reflexivity.
Defined.

(** X23: deleting the entry an append has just added gives back the
    state before the append. *)
Theorem append_delete_round_trip channel e st :
  Inv st →
  (delete_song channel (current_idx st + 1) (append e st)).1 = st.
Proof.
  intros HI. destruct (Inv_holds st HI) as [l Hl]. destruct HI as [_ Hb].
  pose proof Hl as [Hm Hn].
  pose proof (append_holds e st l Hl) as Hl1.
  assert (1 ≤ current_idx st + 1 ≤ Z.of_nat (length (l ++ [e]))) as Hk
    by (rewrite length_app; simpl; lia).
  destruct (delete_song_goes_through channel (current_idx st + 1)
              (append e st) (l ++ [e]) Hl1 Hk) as (x & _ & ->).
  { rewrite append_played_idx. lia. }
  cbn [fst].
  pose proof (delete_entry_holds _ _ _ Hl1 Hk) as [Hm' Hn'].
  replace (Z.to_nat (current_idx st + 1 - 1)) with (length l) in Hm', Hn'
    by lia.
  assert (delete (length l) (l ++ [e])%list = l) as Hdel
    by (rewrite (delete_middle l [] e); apply app_nil_r).
  rewrite Hdel in Hm', Hn'.
  destruct (delete_entry_frame (current_idx st + 1) (append e st)) as [Ha Hy].
  apply state_eq.
  - congruence.
  - congruence.
  - rewrite (delete_entry_played (append e st) (l ++ [e])
               (current_idx st + 1) Hl1 Hk);
      [|rewrite append_played_idx, length_app; simpl; lia
       |rewrite append_played_idx; lia].
    rewrite append_played_idx. unfold played_after_delete.
    repeat case_decide; lia.
  - by rewrite Ha.
  - by rewrite Hy.
Qed.

Lemma append_delete_round_trip_witness :
  (delete_song 7 (current_idx (run scenario) + 1)
     (append song_a (run scenario))).1 = run scenario.
Proof. apply (append_delete_round_trip 7 song_a (run scenario)), run_Inv. Defined.

Lemma holds_lookup st l (i : Z) :
  holds st l →
  song_list st !! i = if decide (1 ≤ i) then l !! Z.to_nat (i - 1) else None.
Proof.
  intros [-> _]. rewrite lookup_map_seqZ.
  case_decide; [by rewrite option_guard_True|by rewrite option_guard_False].
Qed.

(** X24: a deletion that goes through keeps every entry below the
    deleted number under its number and moves every entry above it one
    number down; when the deleted entry is above the played index, the
    played index stays and the same entry is playing. *)
Theorem delete_shifts_later_entries channel k st :
  Inv st → deleted (delete_song channel k st).2 →
  let st' := (delete_song channel k st).1 in
  (∀ i, i < k → song_list st' !! i = song_list st !! i)
  ∧ (∀ i, k ≤ i → song_list st' !! i = song_list st !! (i + 1))
  ∧ (played_idx st < k →
     played_idx st' = played_idx st
     ∧ song_list st' !! played_idx st' = song_list st !! played_idx st).
Proof.
  intros HI Hdel st'.
  destruct (delete_song_cases channel k st)
    as [(_ & Hst' & _ & Hk & _ & Hne)|[Hno _]]; [|done].
  destruct (Inv_holds st HI) as [l Hl]. destruct HI as [_ Hb].
  pose proof Hl as [_ Hn]. rewrite Hn in Hk, Hb.
  assert (holds st' (delete (Z.to_nat (k - 1)) l)) as Hl'.
  { unfold st'. rewrite Hst'. by apply delete_entry_holds. }
  assert (∀ i, i < k → song_list st' !! i = song_list st !! i) as Hbelow.
  { intros i Hi. rewrite (holds_lookup _ _ i Hl'), (holds_lookup _ _ i Hl).
    case_decide; [|done]. apply list_lookup_delete_lt. lia. }
  split; [done|]. split.
  - intros i Hi.
    rewrite (holds_lookup _ _ i Hl'), (holds_lookup _ _ (i + 1) Hl).
    rewrite !decide_True by lia.
    rewrite list_lookup_delete_ge by lia. f_equal. lia.
  - intros Hp.
    assert (played_idx st' = played_idx st) as ->.
    { unfold st'. rewrite Hst'.
      rewrite (delete_entry_played st l k) by (done || lia).
      unfold played_after_delete. repeat case_decide; lia. }
    split; [done|]. by apply Hbelow.
Qed.

Lemma delete_shifts_later_entries_witness :
  let st := (stop_live_chat 7 (append song_a (run scenario))).1 in
  let st' := (delete_song 7 3 st).1 in
  (∀ i, i < 3 → song_list st' !! i = song_list st !! i)
  ∧ (∀ i, 3 ≤ i → song_list st' !! i = song_list st !! (i + 1))
  ∧ (played_idx st < 3 →
     played_idx st' = played_idx st
     ∧ song_list st' !! played_idx st' = song_list st !! played_idx st).
Proof.
  apply (delete_shifts_later_entries 7 3
           (stop_live_chat 7 (append song_a (run scenario))).1).
  - eapply Inv_queue; [apply stop_live_chat_queue|].
    apply append_Inv, run_Inv.
  - eexists. vm_compute. reflexivity.
Defined.

(** ** What the steps never do *)

Lemma next_step_size channel st :
  played_idx (next channel st).1 = played_idx st
  ∨ played_idx (next channel st).1 = played_idx st + 1.
Proof.
  unfold next. destruct (is_empty (song_list st)); [by left|].
  destruct (bool_decide (played_idx st = 0)) eqn:H0; cbn [andb].
  - apply bool_decide_eq_true in H0.
    destruct (bool_decide (current_idx st >= 1)); [right; simpl; lia|].
    destruct (bool_decide (played_idx st < current_idx st)); [by right|by left].
  - destruct (bool_decide (played_idx st < current_idx st)); [by right|by left].
Qed.

Lemma append_keeps_entries e st i x :
  dense st → song_list st !! i = Some x → song_list (append e st) !! i = Some x.
Proof.
  intros Hd Hi. rewrite append_song_list, lookup_insert_ne; [done|].
  intros <-. pose proof (proj1 (Hd _) (mk_is_Some _ _ Hi)). lia.
Qed.

(** X25: in every run, a step that is not a [delete] takes nothing
    back: every entry stays under its number, the counter does not
    decrease, and the played index stays or moves one further. *)
Theorem only_delete_takes_back (ops : list Op) (op : Op) :
  is_delete op = false →
  let st := run ops in
  let st' := step st op in
  (∀ i x, song_list st !! i = Some x → song_list st' !! i = Some x)
  ∧ current_idx st ≤ current_idx st'
  ∧ (played_idx st' = played_idx st ∨ played_idx st' = played_idx st + 1).
Proof.
  intros Hop st st'. pose proof (run_Inv ops) as HI. fold st in HI.
  assert (∀ s, queue s = queue st →
               (∀ i x, song_list st !! i = Some x → song_list s !! i = Some x)
               ∧ current_idx st ≤ current_idx s
               ∧ (played_idx s = played_idx st
                  ∨ played_idx s = played_idx st + 1)) as Hsame.
  { intros s [= -> -> ->]. repeat split; [done|lia|by left]. }
  assert (∀ e, (∀ i x, song_list st !! i = Some x →
                       song_list (append e st) !! i = Some x)
               ∧ current_idx st ≤ current_idx (append e st)
               ∧ (played_idx (append e st) = played_idx st
                  ∨ played_idx (append e st) = played_idx st + 1)) as Happ.
  { intros e. split; [|split].
    - intros i x. apply append_keeps_entries, HI.
    - rewrite append_current_idx. lia.
    - by left. }
  unfold st'. destruct op; simpl in Hop |- *; try done.
  - apply Hsame, on_ready_queue.
  - apply Hsame, start_live_chat_queue.
  - apply Hsame, stop_live_chat_queue.
  - by apply Hsame.
  - by apply Hsame.
  - destruct (next_played channel st HI) as (Hm & Hn & _ & _).
    rewrite Hm, Hn. split; [done|]. split; [lia|apply next_step_size].
  - destruct (add_cases channel song st) as [->|[e ->]]; [by apply Hsame|done].
  - by apply Hsame.
  - destruct (process_item_cases item processed_messages st) as [->|[e ->]];
      [by apply Hsame|done].
  - apply Hsame, poller_cleanup_queue.
Qed.

Lemma only_delete_takes_back_witness :
  let st := run scenario in
  let st' := step st (OpAdd 7 "Miniatur-Ryoda") in
  (∀ i x, song_list st !! i = Some x → song_list st' !! i = Some x)
  ∧ current_idx st ≤ current_idx st'
  ∧ (played_idx st' = played_idx st ∨ played_idx st' = played_idx st + 1).
Proof.
  apply (only_delete_takes_back scenario (OpAdd 7 "Miniatur-Ryoda")).
  reflexivity.
Defined.

(** X26: [current_song] agrees with [next]: after a [next] that moves,
    it reports the entry [next] announced as now playing. *)
Theorem current_song_after_next channel st :
  Inv st → played_idx st < current_idx st →
  ∃ cur rest,
    (next channel st).2 = next_card (("Now Playing", fmt cur) :: rest)
    ∧ current_song channel (next channel st).1
      = Card (titled "Lily Current Song" [("Current Song", fmt cur)] None).
Proof.
  intros [Hd Hb] Hlt.
  destruct (next_below channel st) as (cur & rest & Hcur & ->); [done|lia|].
  exists cur, rest. split; [done|]. cbn [fst]. unfold current_song.
  cbn [song_list played_idx current_idx set_played_idx].
  rewrite (proj2 (is_empty_false _)) by (apply dense_nonempty; [done|lia]).
  rewrite bool_decide_eq_false_2 by lia. by rewrite Hcur.
Qed.

Lemma current_song_after_next_witness :
  ∃ cur rest,
    (next 7 long_queue).2 = next_card (("Now Playing", fmt cur) :: rest)
    ∧ current_song 7 (next 7 long_queue).1
      = Card (titled "Lily Current Song" [("Current Song", fmt cur)] None).
Proof.
  apply (current_song_after_next 7 long_queue).
  - apply long_queue_Inv.
  - vm_compute. reflexivity.
Defined.

(** X27: whenever a run leaves the queue empty, the counter and the
    played index are 0, and every command of the queue says that the
    queue is empty and leaves the state as it is. *)
Theorem empty_queue_answers (ops : list Op) (channel k : Z) :
  song_list (run ops) = ∅ →
  current_idx (run ops) = 0 ∧ played_idx (run ops) = 0
  ∧ next channel (run ops)
      = (run ops, next_card [("Queue Empty", "Tidak ada lagu dalam queue!")])
  ∧ delete_song channel k (run ops) = (run ops, Text msg_queue_empty)
  ∧ current_song channel (run ops)
      = Card (titled "Lily Current Song"
                [("Current Song", "Tidak ada lagu dalam queue saat ini!")] None)
  ∧ list_song channel (run ops)
      = Card (titled "List song"
                [("Queue Status", "Tidak ada lagu dalam queue!")]
                (Some "No songs in queue")).
Proof.
  intros Hempty. pose proof (run_Inv ops) as HI.
  pose proof (Inv_counted _ HI) as Hc. pose proof (Inv_bounded _ HI) as Hb.
  unfold counted, bounded in *. rewrite Hempty in Hc, Hb.
  change (len ∅) with 0 in Hc, Hb.
  split; [done|]. split; [lia|].
  unfold next, delete_song, current_song, list_song.
  by rewrite (proj2 (is_empty_true _) Hempty).
Qed.

Lemma empty_queue_answers_witness :
  current_idx (run []) = 0 ∧ played_idx (run []) = 0
  ∧ next 7 (run [])
      = (run [], next_card [("Queue Empty", "Tidak ada lagu dalam queue!")])
  ∧ delete_song 7 1 (run []) = (run [], Text msg_queue_empty)
  ∧ current_song 7 (run [])
      = Card (titled "Lily Current Song"
                [("Current Song", "Tidak ada lagu dalam queue saat ini!")] None)
  ∧ list_song 7 (run [])
      = Card (titled "List song"
                [("Queue Status", "Tidak ada lagu dalam queue!")]
                (Some "No songs in queue")).
Proof. apply (empty_queue_answers [] 7 1). reflexivity. Defined.
